(** * cereon-demo: the table and area-chart reconciliation logic

    A shallow embedding of the data handling of [TableCard] (merge of
    incoming records into keyed rows, persistence of the streamed rows,
    page clamp, page slice, final deduplication) and of the
    deduplicate-and-sort pass of [AreaChartComponent], with the properties
    the specification states about them.

    The embedding has two layers.  The plain model ([JS], [TableCard],
    [AreaChart]) takes an object for the list of its own properties and
    lets every built-in return; it is what the engine does on ordinary
    data.  [Exact] and [Sorting] follow the engine where the two part
    (the prototype chain, [String] that throws, numbers beyond the safe
    integers, a sort with a comparator that is no order), and
    [ExactFacts] says where they agree.

    Modelling conventions.
    - Data is JSON data: what the transport delivers and what the storage
      hook hands back.  [undefined] only arises as the result of reading a
      property that is not there and is modelled by [None].
    - A number is an integer ([Z]); [String(n)] and [JSON.stringify(n)] are
      its decimal rendering, as JavaScript prints the integers it holds
      exactly, the safe integers ([Exact.safe_integer]).
    - A string is a sequence of code units, one [ascii] each; [<] on strings
      compares code units from the left.
    - An object is the list of its own enumerable properties in JavaScript
      enumeration order (array indices ascending, then the other names in
      creation order).  Members inherited from [Object.prototype] are not
      part of the plain model: every name, [__proto__] included, is an
      ordinary property name, and [String] of an object is
      ["[object Object]"], its own properties being taken not to redefine
      [toString]; [Exact] has the prototype and the throw.
    - [Map] is an association list in insertion order, [Set] a [gset].
    - [useStorageHook] is a cell: [setValue v] makes [v] the stored value.
    - The records of a card are objects, the points of a series are
      objects; a row may be any value, as the component guards for it. *)

From Stdlib Require Import ZArith Ascii String List Sorted Permutation.
From Stdlib Require Import DecimalString DecimalPos DecimalZ.
From stdpp Require Import base tactics option list sorting strings gmap.

Set Warnings "-register-all".

Local Open Scope string_scope.
Local Open Scope list_scope.
Local Open Scope Z_scope.

(** ** JavaScript values and the built-ins the components call *)

Module JS.

Inductive value : Type :=
| VNull
| VBool (b : bool)
| VNum (n : Z)
| VStr (s : string)
| VArr (elems : list value)
| VObj (fields : list (string * value)).

(** The own enumerable properties of an object, in enumeration order. *)
Definition props (A : Type) : Type := list (string * A).
Definition obj : Type := props value.

(** [Number::toString] on a safe integer. *)
Definition show_Z (n : Z) : string := NilZero.string_of_int (Z.to_int n).

Definition show_nat (n : nat) : string := show_Z (Z.of_nat n).

(** An array index is the canonical decimal name of an integer below
    [2^32 - 1]. *)
Definition array_index (k : string) : option N :=
  match NilZero.uint_of_string k with
  | Some d =>
      let n := N.of_uint d in
      if String.eqb (NilZero.string_of_uint (N.to_uint n)) k && (n <? 4294967295)%N
      then Some n else None
  | None => None
  end.

(** [o[k]] on own properties. *)
Fixpoint oget {A} (k : string) (o : props A) : option A :=
  match o with
  | [] => None
  | (k', v) :: o' => if String.eqb k k' then Some v else oget k o'
  end.

Definition ohas {A} (k : string) (o : props A) : bool :=
  match oget k o with Some _ => true | None => false end.

Fixpoint oreplace {A} (k : string) (v : A) (o : props A) : props A :=
  match o with
  | [] => []
  | (k', v') :: o' =>
      if String.eqb k k' then (k', v) :: o' else (k', v') :: oreplace k v o'
  end.

(** Position of a new array index [i]: before the first property that is
    not an array index or is a larger one. *)
Fixpoint oinsert_index {A} (i : N) (k : string) (v : A) (o : props A) : props A :=
  match o with
  | [] => [(k, v)]
  | (k', v') :: o' =>
      match array_index k' with
      | Some j => if (j <? i)%N then (k', v') :: oinsert_index i k v o'
                  else (k, v) :: o
      | None => (k, v) :: o
      end
  end.

(** [o[k] = v]: an existing property keeps its place; a new array index
    goes among the indices in ascending order, any other new name goes
    last. *)
Definition oset {A} (k : string) (v : A) (o : props A) : props A :=
  if ohas k o then oreplace k v o
  else match array_index k with
       | Some i => oinsert_index i k v o
       | None => o ++ [(k, v)]
       end.

Definition okeys {A} (o : props A) : list string := map fst o.

(** [Object.values(o)]. *)
Definition ovalues {A} (o : props A) : list A := map snd o.

(** Copies every property of [src] onto [dst] in enumeration order: one
    spread element of an object literal. *)
Definition oassign {A} (dst src : props A) : props A :=
  fold_left (fun acc kv => oset (fst kv) (snd kv) acc) src dst.

(** [{ ...a, ...b }]. *)
Definition spread2 {A} (a b : props A) : props A := oassign (oassign [] a) b.

(** [{ ...a }]. *)
Definition ocopy {A} (a : props A) : props A := oassign [] a.

(** A [Map] with string keys: insertion order, [set] on a present key
    keeps its place. *)
Definition mget {A} (k : string) (m : props A) : option A := oget k m.

Definition mset {A} (k : string) (v : A) (m : props A) : props A :=
  if ohas k m then oreplace k v m else m ++ [(k, v)].

(** [Array.from(m.values())]. *)
Definition mvalues {A} (m : props A) : list A := map snd m.

(** [String(v)] for a value that is neither [undefined] nor a function. *)
Fixpoint to_String (v : value) : string :=
  match v with
  | VNull => "null"
  | VBool true => "true"
  | VBool false => "false"
  | VNum n => show_Z n
  | VStr s => s
  | VArr l =>
      String.concat ","
        (map (fun e => match e with VNull => "" | _ => to_String e end) l)
  | VObj _ => "[object Object]"
  end.

Definition hex_digit (n : N) : ascii :=
  match n with
  | 0 => "0" | 1 => "1" | 2 => "2" | 3 => "3" | 4 => "4" | 5 => "5"
  | 6 => "6" | 7 => "7" | 8 => "8" | 9 => "9" | 10 => "a" | 11 => "b"
  | 12 => "c" | 13 => "d" | 14 => "e" | _ => "f"
  end%N%char.

(** One code unit of [QuoteJSONString]. *)
Definition json_escape (c : ascii) : string :=
  let n := N_of_ascii c in
  if (n =? 8)%N then "\b"
  else if (n =? 9)%N then "\t"
  else if (n =? 10)%N then "\n"
  else if (n =? 12)%N then "\f"
  else if (n =? 13)%N then "\r"
  else if (n =? 34)%N then String "\" (String (ascii_of_N 34) "")
  else if (n =? 92)%N then "\\"
  else if (n <? 32)%N then
    "\u00" +:+ String (hex_digit (n / 16)) (String (hex_digit (n mod 16)) "")
  else String c "".

Fixpoint json_escape_all (s : string) : string :=
  match s with
  | "" => ""
  | String c s' => json_escape c +:+ json_escape_all s'
  end.

Definition dquote : ascii := ascii_of_N 34.

Definition json_quote (s : string) : string :=
  String dquote (json_escape_all s +:+ String dquote "").

(** [JSON.stringify(v)] without indentation. *)
Fixpoint stringify (v : value) : string :=
  match v with
  | VNull => "null"
  | VBool true => "true"
  | VBool false => "false"
  | VNum n => show_Z n
  | VStr s => json_quote s
  | VArr l => "[" +:+ String.concat "," (map stringify l) +:+ "]"
  | VObj f =>
      "{" +:+ String.concat ","
                (map (fun kv => json_quote (fst kv) +:+ ":" +:+ stringify (snd kv)) f)
          +:+ "}"
  end.





Definition is_digit (c : ascii) : bool :=
  (48 <=? N_of_ascii c)%N && (N_of_ascii c <=? 57)%N.



(** A text that does not go on with a digit. *)
Definition no_digit_head (s : string) : Prop :=
  match s with
  | "" => True
  | String c _ => is_digit c = false
  end.



(** [typeof x === "object"]: true of [null], arrays and objects. *)
Definition typeof_object (x : option value) : bool :=
  match x with
  | Some VNull | Some (VArr _) | Some (VObj _) => true
  | _ => false
  end.

Definition typeof_number (x : option value) : bool :=
  match x with Some (VNum _) => true | _ => false end.

(** [Array.isArray(x)]. *)
Definition isArray (x : option value) : bool :=
  match x with Some (VArr _) => true | _ => false end.

(** Own enumerable properties of any value, as a spread element sees
    them: the fields of an object, the elements of an array and the code
    units of a string under their indices, nothing for the rest. *)
Definition indexed {A} (f : A -> value) (l : list A) : obj :=
  imap (fun i x => (show_nat i, f x)) l.

Definition own_props (v : value) : obj :=
  match v with
  | VObj f => f
  | VArr l => indexed (fun x => x) l
  | VStr s => indexed (fun c => VStr (String c "")) (list_ascii_of_string s)
  | _ => []
  end.

(** [v?.[k]] on own properties ([length] included for arrays and
    strings). *)
Definition get_prop (v : value) (k : string) : option value :=
  match v with
  | VObj f => oget k f
  | VArr l =>
      if String.eqb k "length" then Some (VNum (Z.of_nat (length l)))
      else match array_index k with
           | Some i => nth_error l (N.to_nat i)
           | None => None
           end
  | VStr s =>
      if String.eqb k "length" then Some (VNum (Z.of_nat (String.length s)))
      else match array_index k with
           | Some i =>
               option_map (fun c => VStr (String c ""))
                 (nth_error (list_ascii_of_string s) (N.to_nat i))
           | None => None
           end
  | _ => None
  end.

(** [Array.prototype.slice(start, end)] with integer arguments. *)
Definition slice_index (len i : Z) : Z :=
  if i <? 0 then Z.max (len + i) 0 else Z.min i len.

Definition slice {A} (l : list A) (start stop : Z) : list A :=
  let len := Z.of_nat (length l) in
  let k := slice_index len start in
  let final := slice_index len stop in
  firstn (Z.to_nat (final - k)) (skipn (Z.to_nat k) l).

(** The [<] of two strings compares code units from the left: it is
    [String.ltb]. *)

(** [Array.prototype.sort(cmp)], as a stable insertion sort on the sign
    of [cmp a b].  Where the comparator orders the elements consistently,
    this is the one result the language allows; where it does not, the
    language leaves the order to the engine and this is one such order. *)
Fixpoint sort_insert {A} (cmp : A -> A -> Z) (x : A) (l : list A) : list A :=
  match l with
  | [] => [x]
  | y :: l' => if cmp x y <=? 0 then x :: l else y :: sort_insert cmp x l'
  end.

Definition sort {A} (cmp : A -> A -> Z) (l : list A) : list A :=
  fold_right (sort_insert cmp) [] l.

(** The value the last property named [k] gives: what a spread of [o]
    leaves under [k].  On an object it is [o[k]]. *)
Definition olast {A} (k : string) (o : props A) : option A := oget k (rev o).

(** Enumeration order of property names: array indices ascending, before
    every other name. *)
Definition key_before (k1 k2 : string) : Prop :=
  match array_index k1, array_index k2 with
  | Some i, Some j => (i < j)%N
  | None, Some _ => False
  | _, None => True
  end.

(** A property list as an object can have it: no name twice, names in
    enumeration order. *)
Definition js_ordered {A} (o : props A) : Prop :=
  NoDup (okeys o) /\ StronglySorted key_before (okeys o).

End JS.

(** Both ways round of [<] on the two strings a goal compares. *)
Ltac case_ltb :=
  match goal with
  | |- context [String.ltb ?x ?y] =>
      let E1 := fresh "E" in
      let E2 := fresh "E" in
      destruct (String.ltb x y) eqn:E1; destruct (String.ltb y x) eqn:E2
  end.

(** ** TableCard *)

Module TableCard.
Import JS.

(** The settings the data path reads; [None] is a setting left out. *)
Record settings : Type := {
  s_indexColumn : option string;
  s_enablePagination : option bool;
  s_pageSize : option Z
}.

(** [settings?.indexColumn || "id"]: the empty string is falsy. *)
Definition indexColumn (s : settings) : string :=
  match s_indexColumn s with
  | Some c => if String.eqb c "" then "id" else c
  | None => "id"
  end.

(** [Array.isArray(rec.rows) ? rec.rows : []]. *)
Definition rows_of (rec : obj) : list value :=
  match oget "rows" rec with
  | Some (VArr l) => l
  | _ => []
  end.

(** The key of a row, as all four loops of the component compute it:
    [String(row[indexColumn])] unless that is [undefined] or [null], and
    [JSON.stringify(row)] then. *)
Definition row_key (idx : string) (row : value) : string :=
  match get_prop row idx with
  | None | Some VNull => stringify row
  | Some rawKey => to_String rawKey
  end.

(** The same key computation on a merged row, which is an object. *)
Definition merged_key (idx : string) (r : obj) : string := row_key idx (VObj r).

(** [existing || {}] for an entry that is an object when present. *)
Definition or_empty (existing : option obj) : obj :=
  match existing with Some e => e | None => [] end.

(** The request/response branch: one row into the fresh [Map]. *)
Definition http_step (idx : string) (m : props obj) (row : value) : props obj :=
  let key := row_key idx row in
  let existing := mget key m in
  mset key (spread2 (or_empty existing) (own_props row)) m.

Definition http_map (idx : string) (records : list obj) : props obj :=
  fold_left (fun m rec => fold_left (http_step idx) (rows_of rec) m) records [].

(** The streaming branch: one row into the copy of the persisted rows,
    for a key that is an ordinary property name ([Exact.stream_step] has
    the key [__proto__]). *)
Definition stream_step (idx : string) (merged : props obj) (row : value) : props obj :=
  let key := row_key idx row in
  let existing := or_empty (oget key merged) in
  oset key (spread2 (or_empty (Some existing)) (own_props row)) merged.

(** [storedRowsStored || {}]; [stored] is [None] when the stored value is
    [null]. *)
Definition persisted (stored : option (props obj)) : props obj :=
  match stored with Some p => p | None => [] end.

(** The [merged] object of the streaming branch. *)
Definition stream_merged (idx : string) (stored : option (props obj))
    (records : list obj) : props obj :=
  fold_left (fun merged rec => fold_left (stream_step idx) (rows_of rec) merged)
    records (ocopy (persisted stored)).

Definition mergedRows (isHttp : bool) (idx : string)
    (stored : option (props obj)) (records : list obj) : list obj :=
  if isHttp then mvalues (http_map idx records)
  else ovalues (stream_merged idx stored records).

(** The object map the persistence effect builds from [mergedRows], for
    keys that are ordinary property names ([Exact.persist_map] has the key
    [__proto__]). *)
Definition persist_map (idx : string) (rows : list obj) : props obj :=
  fold_left (fun m r => oset (merged_key idx r) r m) rows [].

Definition store_value (m : props obj) : value :=
  VObj (map (fun kv => (fst kv, VObj (snd kv))) m).

(** The persistence effect: [Some m] is the call [setStoredRows(m)],
    [None] is no call. *)
Definition persist_effect (isHttp : bool) (idx : string) (rows : list obj)
    (stored : option (props obj)) : option (props obj) :=
  if isHttp then None
  else
    let m := persist_map idx rows in
    let prev := persisted stored in
    let prevJson := stringify (store_value prev) in
    let nextJson := stringify (store_value m) in
    if String.eqb prevJson nextJson then None else Some m.




(** [typeof storedPage === "number" && storedPage > 0 ? storedPage : 1]. *)
Definition page (storedPage : option Z) : Z :=
  match storedPage with
  | Some p => if 0 <? p then p else 1
  | None => 1
  end.

(** [settings?.pageSize || 10]. *)
Definition settingsPageSize (s : settings) : Z :=
  match s_pageSize s with
  | Some n => if n =? 0 then 10 else n
  | None => 10
  end.

Definition pageSize (storedPageSize : option Z) (s : settings) : Z :=
  match storedPageSize with
  | Some n => if 0 <? n then n else settingsPageSize s
  | None => settingsPageSize s
  end.

(** [Math.ceil(a / b)] on integers, [b] not zero. *)
Definition ceil_div (a b : Z) : Z := - ((- a) / b).

Definition totalPages (count pageSize : Z) : Z :=
  Z.max 1 (ceil_div count pageSize).

(** The clamp effect: [Some p] is the call [setPage(p)]. *)
Definition clamp_effect (count page pageSize : Z) : option Z :=
  let totalPages := totalPages count pageSize in
  if totalPages <? page then Some totalPages else None.

Definition visibleRows (s : settings) (rows : list obj) (page pageSize : Z)
    : list obj :=
  let start := (page - 1) * pageSize in
  let stop := start + pageSize in
  match s_enablePagination s with
  | Some false => rows
  | _ => slice rows start stop
  end.

(** The final pass: [seen] and [out] after one row. *)
Definition dedupe_step (idx : string) (st : gset string * list obj) (r : obj)
    : gset string * list obj :=
  let key := merged_key idx r in
  if decide (key ∈ fst st) then st
  else ({[ key ]} ∪ fst st, snd st ++ [r]).

Definition dedupedVisibleRows (idx : string) (rows : list obj) : list obj :=
  snd (fold_left (dedupe_step idx) rows (∅, [])).

(** What one render hands on. *)
Inductive output : Type :=
| NoTableData
| TableView (rows : list obj) (page pageSize count : Z).

Record rendered : Type := {
  r_output : output;
  r_setStoredRows : option (props obj);
  r_setPage : option Z
}.

(** One render of the component with the effects it schedules.  The
    component returns the placeholder when there are no merged rows, before
    the page hooks, the clamp effect and the views are reached. *)
Definition render (isHttp : bool) (s : settings) (stored : option (props obj))
    (storedPage storedPageSize : option Z) (records : list obj) : rendered :=
  let idx := indexColumn s in
  let rows := mergedRows isHttp idx stored records in
  let w := persist_effect isHttp idx rows stored in
  if (length rows =? 0)%nat then
    {| r_output := NoTableData; r_setStoredRows := w; r_setPage := None |}
  else
    let p := page storedPage in
    let ps := pageSize storedPageSize s in
    let count := Z.of_nat (length rows) in
    {| r_output :=
         TableView (dedupedVisibleRows idx (visibleRows s rows p ps)) p ps count;
       r_setStoredRows := w;
       r_setPage := clamp_effect count p ps |}.

(** The stored page once the effects of a render have run. *)
Definition storedPage_after (storedPage : option Z) (r : rendered) : option Z :=
  match r_setPage r with
  | Some p => Some p
  | None => storedPage
  end.

(** Every entry sits under the key its own content gives. *)
Definition well_keyed (idx : string) (m : props obj) : Prop :=
  Forall (fun kv => merged_key idx (snd kv) = fst kv) m.

(** The rows of all records in arrival order. *)
Definition all_rows (records : list obj) : list value := flat_map rows_of records.

(** A record whose [rows] is an array. *)
Definition has_rows (rec : obj) : bool := isArray (oget "rows" rec).

(** The entry under key [k] after one more row: rows of another key leave
    it alone, a row of key [k] is spread over it. *)
Definition entry_step (idx k : string) (entry : option obj) (row : value)
    : option obj :=
  if String.eqb k (row_key idx row)
  then Some (spread2 (or_empty entry) (own_props row))
  else entry.

(** The fields the rows of key [k] bring, in arrival order. *)
Definition fields_for (idx k : string) (rows : list value) : obj :=
  flat_map (fun row => if String.eqb k (row_key idx row) then own_props row else [])
    rows.

Definition touched (idx k : string) (rows : list value) : bool :=
  existsb (fun row => String.eqb k (row_key idx row)) rows.

End TableCard.

(** Settings with everything left out. *)
Definition no_settings : TableCard.settings :=
  {| TableCard.s_indexColumn := None;
     TableCard.s_enablePagination := None;
     TableCard.s_pageSize := None |}.

(** The end-to-end scenario of the specification. *)
Module Scenario.
Import JS.

Definition row_1x : obj := [("id", VNum 1); ("a", VStr "x")].
Definition row_1y : obj := [("id", VNum 1); ("b", VStr "y")].
Definition row_2z : obj := [("id", VNum 2); ("a", VStr "z")].
Definition row_1xy : obj := [("id", VNum 1); ("a", VStr "x"); ("b", VStr "y")].

Definition batch1 : obj := [("rows", VArr [VObj row_1x])].
Definition batch2 : obj := [("rows", VArr [VObj row_1y; VObj row_2z])].

Definition collection : props obj := [("1", row_1xy); ("2", row_2z)].

(** Points of a series, by their [time]. *)
Definition at_time (t : value) : obj := [("time", t); ("value", VNum 0)].

Definition numeric_points : list obj :=
  [at_time (VNum 3); at_time (VNum 1); at_time (VNum 2)].

Definition dated_points : list obj :=
  [at_time (VStr "2024-01-02"); at_time (VStr "2024-01-01")].

Definition malformed_points : list obj :=
  [at_time (VStr "2024-01-02"); at_time (VStr "soon"); [("value", VNum 7)];
   at_time (VStr "2024-01-01")].

Definition rewritten_points : list obj :=
  [[("time", VNum 1); ("value", VNum 10)]; [("time", VNum 2); ("value", VNum 20)];
   [("time", VNum 1); ("value", VNum 30)]].

End Scenario.

(** ** AreaChartComponent: deduplicate and sort the points of a series *)

Module AreaChart.
Import JS.

Definition time (pt : obj) : option value := oget "time" pt.

(** [typeof t === "object" ? JSON.stringify(t) : String(t)]. *)
Definition time_string (t : option value) : string :=
  match t with
  | Some v => if typeof_object t then stringify v else to_String v
  | None => "undefined"
  end.

(** The key a point is deduplicated under. *)
Definition point_key (pt : obj) : string := time_string (time pt).

Definition keyed (merged : list obj) : props obj :=
  fold_left (fun m pt => mset (point_key pt) pt m) merged [].

(** The sign of the comparator handed to [sort]. *)
Definition compare_points (a b : obj) : Z :=
  match time a, time b with
  | Some (VNum ta), Some (VNum tb) => ta - tb
  | ta, tb =>
      let sa := time_string ta in
      let sb := time_string tb in
      if String.ltb sa sb then -1 else if String.ltb sb sa then 1 else 0
  end.

Definition deduped (merged : list obj) : list obj :=
  sort compare_points (mvalues (keyed merged)).

(** The data handed to [setData] for one series. *)
Definition series_data (merged : list obj) : list obj :=
  if (0 <? length merged)%nat then deduped merged else [].

(** The ascending order of the specification: numeric when both times
    are numbers, otherwise [<] on the string forms. *)
Definition point_before (a b : obj) : Prop :=
  match time a, time b with
  | Some (VNum ta), Some (VNum tb) => ta < tb
  | _, _ => String.ltb (point_key a) (point_key b) = true
  end.

Definition numeric (pt : obj) : bool := typeof_number (time pt).

End AreaChart.

(** ** TableCard: what surrounds the merge and the views *)

Module TableMore.
Import JS TableCard.






(** [row[indexColumn] ?? rowIndex], the key of a rendered row, as the
    string under which React compares keys. *)
Definition row_react_key (idx : string) (rowIndex : nat) (row : obj) : string :=
  match oget idx row with
  | None | Some VNull => to_String (VNum (Z.of_nat rowIndex))
  | Some v => to_String v
  end.

Definition react_keys (idx : string) (rows : list obj) : list string :=
  imap (row_react_key idx) rows.

(** [start + rowIndex + 1], the number shown beside a row. *)
Definition row_number (page pageSize : Z) (rowIndex : nat) : Z :=
  (page - 1) * pageSize + Z.of_nat rowIndex + 1.


(** A row that is an object with the index column set. *)
Definition keyed_row (idx : string) (row : value) : Prop :=
  match row with
  | VObj f =>
      NoDup (okeys f)
      /\ match oget idx f with None | Some VNull => False | Some _ => True end
  | _ => False
  end.

(** The pages [1 .. n] of a list of rows. *)
Definition pages (s : settings) (rows : list obj) (pageSize : Z) (n : nat)
    : list (list obj) :=
  map (fun i => visibleRows s rows (Z.of_nat (S i)) pageSize) (seq 0 n).

(** [row[indexColumn]] is neither [undefined] nor [null]. *)
Definition has_index (idx : string) (row : obj) : bool :=
  match oget idx row with
  | None | Some VNull => false
  | Some _ => true
  end.

End TableMore.

(** ** AreaChartComponent: gathering the points and keeping the series *)

Module ChartMore.
Import JS AreaChart.

Record descriptor : Type := {
  d_id : string;
  d_name : option string;
  d_visible : option bool
}.

(** [descriptor.visible === false]. *)
Definition hidden (d : descriptor) : bool :=
  match d_visible d with
  | Some false => true
  | _ => false
  end.

(** [descriptor.name ?? descriptor.id]. *)
Definition title (d : descriptor) : string :=
  match d_name d with
  | Some n => n
  | None => d_id d
  end.

Definition seriesById (series : list descriptor) : props descriptor :=
  fold_left (fun m s => mset (d_id s) s m) series [].

(** Truthiness of a value. *)
Definition truthy (v : value) : bool :=
  match v with
  | VNull => false
  | VBool b => b
  | VNum n => negb (n =? 0)
  | VStr s => negb (String.eqb s "")
  | VArr _ | VObj _ => true
  end.

(** The points one record brings to the series [id]. *)
Definition record_points (id : string) (rec : obj) : list value :=
  match oget "data" rec with
  | Some data =>
      if truthy data then
        match get_prop data id with
        | Some (VArr seriesData) => seriesData
        | _ => []
        end
      else []
  | None => []
  end.

(** The [merged] array of a descriptor. *)
Definition gather (id : string) (records : list obj) : list value :=
  flat_map (record_points id) records.

(** [pt.time] of a point that is not [null]. *)
Definition point_time (pt : value) : option value := get_prop pt "time".

Definition value_key (pt : value) : string := time_string (point_time pt).

Definition value_keyed (merged : list value) : props value :=
  fold_left (fun m pt => mset (value_key pt) pt m) merged [].

Definition compare_values (a b : value) : Z :=
  match point_time a, point_time b with
  | Some (VNum ta), Some (VNum tb) => ta - tb
  | ta, tb =>
      let sa := time_string ta in
      let sb := time_string tb in
      if String.ltb sa sb then -1 else if String.ltb sb sa then 1 else 0
  end.

Definition is_null (v : value) : bool :=
  match v with VNull => true | _ => false end.

(** The data a descriptor hands to [setData]; [None] when reading
    [pt.time] of a [null] point throws, in the [try] and again in its
    [catch]. *)
Definition effect_data (merged : list value) : option (list value) :=
  if (0 <? length merged)%nat then
    if existsb is_null merged then None
    else Some (sort compare_values (mvalues (value_keyed merged)))
  else Some [].

(** A series of the chart: which object it is, its title and its data.
    The calls into the chart library ([addSeries], [applyOptions],
    [setData], [removeSeries]) are taken to succeed. *)
Record series_ref : Type := {
  s_uid : nat;
  s_title : string;
  s_data : list value
}.

(** [seriesMapRef.current] with the number of series created so far,
    which names the next one. *)
Record chart_state : Type := {
  existingMap : props series_ref;
  created : nat
}.

(** [Map.prototype.delete]. *)
Definition mdelete {A} (k : string) (m : props A) : props A :=
  List.filter (fun kv => negb (String.eqb k (fst kv))) m.

(** The first loop: a series whose id has no descriptor, or a hidden one,
    is removed. *)
Definition remove_stale (byId : props descriptor) (m : props series_ref)
    : props series_ref :=
  fold_left
    (fun acc entry =>
       match mget (fst entry) byId with
       | Some incoming => if hidden incoming then mdelete (fst entry) acc else acc
       | None => mdelete (fst entry) acc
       end)
    m m.

(** The second loop, one descriptor; [None] when the data throws. *)
Definition descriptor_step (records : list obj) (st : chart_state)
    (d : descriptor) : option chart_state :=
  if hidden d then
    match mget (d_id d) (existingMap st) with
    | Some _ =>
        Some {| existingMap := mdelete (d_id d) (existingMap st);
                created := created st |}
    | None => Some st
    end
  else
    let existing := mget (d_id d) (existingMap st) in
    match effect_data (gather (d_id d) records) with
    | None => None
    | Some data =>
        match existing with
        | None =>
            Some {| existingMap :=
                      mset (d_id d)
                        {| s_uid := created st; s_title := title d; s_data := data |}
                        (existingMap st);
                    created := S (created st) |}
        | Some s =>
            Some {| existingMap :=
                      mset (d_id d)
                        {| s_uid := s_uid s; s_title := title d; s_data := data |}
                        (existingMap st);
                    created := created st |}
        end
    end.

Fixpoint descriptors_loop (records : list obj) (st : chart_state)
    (series : list descriptor) : option chart_state :=
  match series with
  | [] => Some st
  | d :: rest =>
      match descriptor_step records st d with
      | Some st' => descriptors_loop records st' rest
      | None => None
      end
  end.

(** The series effect on a chart that exists. *)
Definition series_effect (records : list obj) (series : list descriptor)
    (st : chart_state) : option chart_state :=
  descriptors_loop records
    {| existingMap := remove_stale (seriesById series) (existingMap st);
       created := created st |}
    series.

(** The test of the first loop on an id: no descriptor, or a hidden
    one. *)
Definition stale (byId : props descriptor) (id : string) : bool :=
  match mget id byId with
  | Some incoming => hidden incoming
  | None => true
  end.

(** The descriptor that decides for an id: the last one of that id. *)
Definition last_descriptor (id : string) (series : list descriptor)
    : option descriptor :=
  olast id (map (fun d => (d_id d, d)) series).

(** A chart of one shown and one hidden series, and a record with three
    points of the first. *)
Definition price : descriptor :=
  {| d_id := "price"; d_name := Some "Price"; d_visible := None |}.

Definition volume : descriptor :=
  {| d_id := "volume"; d_name := None; d_visible := Some false |}.

Definition price_record : obj :=
  [("kind", VStr "tlwc:area");
   ("data", VObj [("price", VArr (map VObj Scenario.numeric_points))])].

Definition empty_chart : chart_state := {| existingMap := []; created := 0 |}.

End ChartMore.

(** ** The TradingView report: the bento grid *)

Module TradingView.

Record CardGridPosition : Type := {
  x : Z; y : Z; w : Z; h : Z; minW : Z; minH : Z
}.

(** [makeGridPosition(index, colCount, itemHeight)] on integers, with
    [colCount] not zero, as long as every number it computes is an
    integer a double holds exactly (below [2^53]); beyond that the
    products of the code are rounded. *)
Definition makeGridPosition (index colCount itemHeight : Z) : CardGridPosition :=
  let col := Z.rem index colCount in
  let row := index / colCount in
  {| x := col * 4; y := row * itemHeight; w := 4; h := itemHeight;
     minW := 3; minH := 4 |}.

(** Two grid cells share a unit square. *)
Definition overlap (a b : CardGridPosition) : Prop :=
  x a < x b + w b /\ x b < x a + w a /\ y a < y b + h b /\ y b < y a + h a.

End TradingView.

(** ** The engine's side of the table: prototypes, [String], numbers

    The definitions above take an object for the list of its own
    properties.  That is what the engine does for every name but
    [__proto__], for every index column no object inherits, and as long
    as [String] returns.  This module follows the engine where they part:
    a property read goes on to [Object.prototype], an assignment to
    [__proto__] sets the prototype, [String] of an object with a property
    named [toString] throws, and a number is printed digit by digit only
    while it is a safe integer. *)

Module Exact.
Import JS TableCard.

(** What running a piece of the component gives: a value, a [TypeError],
    or nothing the model can tell: a number that is not a safe integer, a
    row that is neither an object nor [null]. *)
Inductive outcome (A : Type) : Type :=
| Returns (a : A)
| Throws
| Beyond.

Arguments Returns {A} a.
Arguments Throws {A}.
Arguments Beyond {A}.

Definition bind {A B} (x : outcome A) (f : A -> outcome B) : outcome B :=
  match x with
  | Returns a => f a
  | Throws => Throws
  | Beyond => Beyond
  end.

(** [Number.isSafeInteger]: the integers a double holds with their
    neighbours, which [Number::toString] prints digit by digit. *)
Definition safe_integer (n : Z) : bool := Z.abs n <? 2 ^ 53.

Fixpoint safe (v : value) : bool :=
  match v with
  | VNum n => safe_integer n
  | VArr l => forallb safe l
  | VObj f => forallb (fun kv => safe (snd kv)) f
  | _ => true
  end.

(** [String(v)].  An array joins the strings of its elements, [null]
    giving the empty string; an object goes through
    [Object.prototype.toString] unless it has a property [toString] of its
    own, which in JSON data is not callable: then [valueOf] gives no
    primitive either and the conversion throws. *)
Fixpoint ToString (v : value) : outcome string :=
  match v with
  | VNull => Returns "null"
  | VBool true => Returns "true"
  | VBool false => Returns "false"
  | VNum n => if safe_integer n then Returns (show_Z n) else Beyond
  | VStr s => Returns s
  | VArr l =>
      bind
        ((fix join (l : list value) : outcome (list string) :=
            match l with
            | [] => Returns []
            | e :: rest =>
                bind (match e with VNull => Returns "" | _ => ToString e end)
                  (fun s => bind (join rest) (fun ss => Returns (s :: ss)))
            end) l)
        (fun ss => Returns (String.concat "," ss))
  | VObj f => if ohas "toString" f then Throws else Returns "[object Object]"
  end.

(** [JSON.stringify(v)], which does not throw on JSON data. *)
Definition Stringify (v : value) : outcome string :=
  if safe v then Returns (stringify v) else Beyond.

(** The functions every object inherits from [Object.prototype], each
    under its property name with the name the function has. *)
Definition prototype_functions : props string :=
  [("constructor", "Object"); ("hasOwnProperty", "hasOwnProperty");
   ("isPrototypeOf", "isPrototypeOf");
   ("propertyIsEnumerable", "propertyIsEnumerable");
   ("toLocaleString", "toLocaleString"); ("toString", "toString");
   ("valueOf", "valueOf"); ("__defineGetter__", "__defineGetter__");
   ("__defineSetter__", "__defineSetter__");
   ("__lookupGetter__", "__lookupGetter__");
   ("__lookupSetter__", "__lookupSetter__")].

(** What [o[k]] finds on an object whose prototype is [Object.prototype]:
    a property of its own, the prototype itself under [__proto__], an
    inherited function, or nothing. *)
Inductive member : Type :=
| Own (v : value)
| Prototype
| Native (name : string)
| Undefined.

Definition Get (o : obj) (k : string) : member :=
  match oget k o with
  | Some v => Own v
  | None =>
      if String.eqb k "__proto__" then Prototype
      else match oget k prototype_functions with
           | Some name => Native name
           | None => Undefined
           end
  end.

(** [String] of a built-in function, as V8 and JavaScriptCore print it. *)
Definition native_source (name : string) : string :=
  "function " +:+ name +:+ "() { [native code] }".

(** The key of a row: [String(row?.[indexColumn])] unless that is
    [undefined] or [null], and [JSON.stringify(row)] then. *)
Definition row_key (idx : string) (row : value) : outcome string :=
  match row with
  | VObj f =>
      match Get f idx with
      | Own VNull | Undefined => Stringify row
      | Own rawKey => ToString rawKey
      | Prototype => Returns "[object Object]"
      | Native name => Returns (native_source name)
      end
  | VNull => Stringify row
  | _ => Beyond
  end.

(** An object used as a map: its own entries, and the object an
    assignment to [__proto__] made its prototype ([None] while it is
    [Object.prototype]). *)
Record object : Type := {
  own : props obj;
  proto : option obj
}.

(** The fields [{ ...(merged[key] || {}) }] spreads: those of the entry;
    failing that what the prototype chain gives under [key], a field of
    the prototype object if it has one, the prototype object itself under
    [__proto__]; an inherited function has nothing to spread. *)
Definition existing (merged : object) (key : string) : obj :=
  match oget key (own merged) with
  | Some entry => entry
  | None =>
      match proto merged with
      | Some p =>
          match oget key p with
          | Some v => if ChartMore.truthy v then own_props v else []
          | None => if String.eqb key "__proto__" then p else []
          end
      | None => []
      end
  end.

(** [merged[key] = v] for an object [v]: an entry is set or made, except
    that under [__proto__], unless the object or its prototype has a
    property of that name, the setter of [Object.prototype] makes [v] the
    prototype and no entry. *)
Definition assign (merged : object) (key : string) (v : obj) : object :=
  let chain_has :=
    ohas key (own merged)
    || match proto merged with Some p => ohas key p | None => false end in
  if String.eqb key "__proto__" && negb chain_has
  then {| own := own merged; proto := Some v |}
  else {| own := oset key v (own merged); proto := proto merged |}.

(** The streaming branch, one row. *)
Definition stream_step (idx : string) (merged : object) (row : value)
    : outcome object :=
  bind (row_key idx row) (fun key =>
    Returns (assign merged key (spread2 (existing merged key) (own_props row)))).

Definition stream_merged (idx : string) (stored : option (props obj))
    (records : list obj) : outcome object :=
  fold_left
    (fun merged rec =>
       fold_left (fun merged row => bind merged (fun m => stream_step idx m row))
         (rows_of rec) merged)
    records (Returns {| own := ocopy (persisted stored); proto := None |}).

(** The request/response branch, one row: a [Map] has no prototype to
    set. *)
Definition http_step (idx : string) (m : props obj) (row : value)
    : outcome (props obj) :=
  bind (row_key idx row) (fun key =>
    Returns (mset key (spread2 (or_empty (mget key m)) (own_props row)) m)).

Definition http_map (idx : string) (records : list obj) : outcome (props obj) :=
  fold_left
    (fun m rec =>
       fold_left (fun m row => bind m (fun m => http_step idx m row))
         (rows_of rec) m)
    records (Returns []).

Definition mergedRows (isHttp : bool) (idx : string)
    (stored : option (props obj)) (records : list obj) : outcome (list obj) :=
  if isHttp then bind (http_map idx records) (fun m => Returns (mvalues m))
  else bind (stream_merged idx stored records) (fun m => Returns (ovalues (own m))).

(** The object map of the persistence effect. *)
Definition persist_map (idx : string) (rows : list obj) : outcome object :=
  fold_left
    (fun map r =>
       bind map (fun m =>
         bind (row_key idx (VObj r)) (fun key => Returns (assign m key r))))
    rows (Returns {| own := []; proto := None |}).

(** The persistence effect of a stream: [Some m] is the call
    [setStoredRows(map)], of which the storage keeps the own entries
    [m]. *)
Definition persist_effect (idx : string) (rows : list obj)
    (stored : option (props obj)) : outcome (option (props obj)) :=
  bind (persist_map idx rows) (fun map =>
    bind (Stringify (store_value (persisted stored))) (fun prevJson =>
      bind (Stringify (store_value (own map))) (fun nextJson =>
        Returns (if String.eqb prevJson nextJson then None else Some (own map))))).

(** The key of every row of a list, when none throws. *)
Fixpoint keys_of (idx : string) (rows : list value) : outcome (list string) :=
  match rows with
  | [] => Returns []
  | row :: rest =>
      bind (row_key idx row) (fun k =>
        bind (keys_of idx rest) (fun ks => Returns (k :: ks)))
  end.

(** A value [String] throws on. *)
Fixpoint unprintable (v : value) : bool :=
  match v with
  | VArr l => existsb unprintable l
  | VObj f => ohas "toString" f
  | _ => false
  end.

(** A row on which the plain model and the engine agree about the key:
    its numbers are in range, and the index column names a property of
    its own that [String] prints, or nothing at all. *)
Definition ordinary (idx : string) (row : value) : Prop :=
  safe row = true
  /\ match row with
     | VObj f =>
         match Get f idx with
         | Own v => unprintable v = false
         | Undefined => True
         | Prototype | Native _ => False
         end
     | VNull => True
     | _ => False
     end.

End Exact.

(** ** What the language promises of a sort *)

Module Sorting.
Import JS AreaChart.

(** A consistent comparator for the elements of [l], as the language
    defines it: [cmp a b = 0] is an equivalence, [cmp a b < 0] and
    [cmp a b > 0] are transitive. *)
Definition consistent {A} (cmp : A -> A -> Z) (l : list A) : Prop :=
  forall a b c, a ∈ l -> b ∈ l -> c ∈ l ->
    cmp a a = 0
    /\ (cmp a b = 0 -> cmp b a = 0)
    /\ (cmp a b = 0 -> cmp b c = 0 -> cmp a c = 0)
    /\ (cmp a b < 0 -> cmp b c < 0 -> cmp a c < 0)
    /\ (0 < cmp a b -> 0 < cmp b c -> 0 < cmp a c).

(** A result [Array.prototype.sort(cmp)] may give for [l]: always a
    rearrangement of [l]; when the comparator is consistent, one in which
    no element stands behind an element it compares below.  (Ties keep
    their order as well; nothing here depends on it.)  With a comparator
    that is not consistent the order is the engine's: [JS.sort] is then
    one order among those an engine may give. *)
Definition sort_result {A} (cmp : A -> A -> Z) (l out : list A) : Prop :=
  out ≡ₚ l
  /\ (consistent cmp l -> StronglySorted (fun a b => 0 <= cmp b a) out).

(** The data a series may be handed for the gathered points [merged]. *)
Definition series_view (merged out : list obj) : Prop :=
  if (0 <? length merged)%nat
  then sort_result compare_points (mvalues (keyed merged)) out
  else out = [].

End Sorting.

(** ** Inputs on which the engine and the specification part *)

Module Cases.
Import JS AreaChart Scenario.

(** A row whose id is [__proto__], alone and followed by a row whose id
    is the name of one of its fields. *)
Definition proto_row : obj := [("id", VStr "__proto__"); ("a", VStr "xy")].

Definition proto_batch : obj := [("rows", VArr [VObj proto_row])].

Definition leak_batch : obj :=
  [("rows", VArr [VObj proto_row; VObj [("id", VStr "a")]])].

(** A batch of two rows of one key: the id of the first is the
    serialization of the second, which has no id. *)
Definition anonymous_row : obj := [("id", VNull)].

Definition named_row : obj :=
  [("id", VStr (stringify (VObj anonymous_row))); ("b", VNum 2)].

Definition rekey_batch : obj :=
  [("rows", VArr [VObj named_row; VObj anonymous_row])].

Definition rekeyed_row : obj := [("id", VNull); ("b", VNum 2)].

Definition rekeyed_store : props obj :=
  [(stringify (VObj rekeyed_row), rekeyed_row)].


(** Three points whose times the comparator orders in a circle:
    10 before ["5"] and ["5"] before 9 as strings, 9 before 10 as
    numbers. *)
Definition cyclic_points : list obj :=
  [at_time (VNum 10); at_time (VStr "5"); at_time (VNum 9)].

End Cases.

(** * Properties *)

(** ** Property lists *)

Module PropsFacts.
Import JS.

Section props.
Context {A : Type}.
Implicit Types (o d s p rest a b : props A) (k : string) (v : A).

Lemma oget_None_iff k o : oget k o = None <-> k ∉ okeys o.
Proof.
  induction o as [|[k' v'] o IH]; simpl.
  - split; [intros _; apply not_elem_of_nil | done].
  - rewrite not_elem_of_cons. destruct (String.eqb_spec k k') as [->|Hne].
    + split; [done | intros [? _]; done].
    + rewrite IH. tauto.
Qed.

Lemma ohas_true_iff k o : ohas k o = true <-> k ∈ okeys o.
Proof.
  unfold ohas. destruct (oget k o) eqn:E.
  - split; [intros _ | done].
    destruct (decide (k ∈ okeys o)) as [|Hn]; [done|].
    apply oget_None_iff in Hn. congruence.
  - apply oget_None_iff in E. split; [done | intros; contradiction].
Qed.

Lemma ohas_false_iff k o : ohas k o = false <-> k ∉ okeys o.
Proof. rewrite <- ohas_true_iff. destruct (ohas k o); split; congruence. Qed.

Lemma oget_Some_elem k v o : oget k o = Some v -> (k, v) ∈ o.
Proof.
  induction o as [|[k' v'] o IH]; simpl; [done|].
  destruct (String.eqb_spec k k') as [->|Hne].
  - intros [= ->]. apply elem_of_cons; auto.
  - intros H. apply elem_of_cons; auto.
Qed.

Lemma oget_elem_NoDup k v o : NoDup (okeys o) -> (k, v) ∈ o -> oget k o = Some v.
Proof.
  induction o as [|[k' v'] o IH]; simpl.
  - intros _ H. by apply elem_of_nil in H.
  - intros [Hni Hnd]%NoDup_cons [[= -> ->]|Hin]%elem_of_cons.
    + by rewrite String.eqb_refl.
    + destruct (String.eqb_spec k k') as [->|]; [|by apply IH].
      destruct Hni. apply list_elem_of_fmap. by exists (k', v).
Qed.

Lemma okeys_oreplace k v o : okeys (oreplace k v o) = okeys o.
Proof.
  induction o as [|[k' v'] o IH]; simpl; [done|].
  destruct (String.eqb k k'); simpl; [done | by rewrite IH].
Qed.

Lemma oget_oreplace k k' v o :
  k ∈ okeys o ->
  oget k' (oreplace k v o) = if String.eqb k' k then Some v else oget k' o.
Proof.
  induction o as [|[k1 v1] o IH]; simpl.
  - intros H. by apply elem_of_nil in H.
  - intros H. destruct (String.eqb_spec k k1) as [->|Hne]; simpl.
    + by destruct (String.eqb k' k1).
    + apply elem_of_cons in H as [?|H]; [done|].
      rewrite (IH H). destruct (String.eqb_spec k' k1) as [->|]; [|done].
      destruct (String.eqb_spec k1 k); congruence.
Qed.

Lemma oreplace_same k v o : oget k o = Some v -> oreplace k v o = o.
Proof.
  induction o as [|[k1 v1] o IH]; simpl; [done|].
  destruct (String.eqb_spec k k1) as [->|Hne].
  - by intros [= ->].
  - intros H. by rewrite IH.
Qed.

Lemma okeys_oinsert_index i k v o :
  okeys (oinsert_index i k v o) ≡ₚ k :: okeys o.
Proof.
  induction o as [|[k1 v1] o IH]; simpl; [done|].
  destruct (array_index k1) as [j|]; [|done].
  destruct (j <? i)%N; simpl; [|done].
  rewrite IH. apply Permutation_swap.
Qed.

Lemma oget_oinsert_index i k k' v o :
  k ∉ okeys o ->
  oget k' (oinsert_index i k v o) = if String.eqb k' k then Some v else oget k' o.
Proof.
  induction o as [|[k1 v1] o IH]; simpl; [done|].
  intros [Hne Hni]%not_elem_of_cons.
  assert (Hhead : oget k' ((k, v) :: (k1, v1) :: o)
                  = if String.eqb k' k then Some v else
                      if String.eqb k' k1 then Some v1 else oget k' o) by done.
  destruct (array_index k1) as [j|]; [|done].
  destruct (j <? i)%N; [|done]. simpl. rewrite (IH Hni).
  destruct (String.eqb_spec k' k1) as [->|]; [|done].
  destruct (String.eqb_spec k1 k); congruence.
Qed.

Lemma oget_app_fresh k k' v o :
  oget k' (o ++ [(k, v)])
  = match oget k' o with Some x => Some x
    | None => if String.eqb k' k then Some v else None end.
Proof.
  induction o as [|[k1 v1] o IH]; simpl; [done|].
  by destruct (String.eqb k' k1).
Qed.

Lemma okeys_app o1 o2 : okeys (o1 ++ o2) = okeys o1 ++ okeys o2.
Proof. apply map_app. Qed.

(** Reading after writing. *)
Lemma oget_oset k k' v o :
  oget k' (oset k v o) = if String.eqb k' k then Some v else oget k' o.
Proof.
  unfold oset. destruct (ohas k o) eqn:Hh.
  - apply oget_oreplace. by apply ohas_true_iff.
  - apply ohas_false_iff in Hh. destruct (array_index k) as [i|].
    + by apply oget_oinsert_index.
    + rewrite oget_app_fresh. destruct (String.eqb_spec k' k) as [->|].
      * by apply oget_None_iff in Hh as ->.
      * by destruct (oget k' o).
Qed.

Lemma oget_mset k k' v o :
  oget k' (mset k v o) = if String.eqb k' k then Some v else oget k' o.
Proof.
  unfold mset. destruct (ohas k o) eqn:Hh.
  - apply oget_oreplace. by apply ohas_true_iff.
  - apply ohas_false_iff in Hh.
    rewrite oget_app_fresh. destruct (String.eqb_spec k' k) as [->|].
    + by apply oget_None_iff in Hh as ->.
    + by destruct (oget k' o).
Qed.

Lemma okeys_oset_present k v o : k ∈ okeys o -> okeys (oset k v o) = okeys o.
Proof.
  intros H. unfold oset. apply ohas_true_iff in H as ->. apply okeys_oreplace.
Qed.

Lemma okeys_oset_perm k v o :
  okeys (oset k v o) ≡ₚ if ohas k o then okeys o else k :: okeys o.
Proof.
  unfold oset. destruct (ohas k o).
  - by rewrite okeys_oreplace.
  - destruct (array_index k).
    + apply okeys_oinsert_index.
    + rewrite okeys_app. simpl. symmetry. apply Permutation_cons_append.
Qed.

Lemma elem_of_okeys_oset k k' v o :
  k' ∈ okeys (oset k v o) <-> k' = k \/ k' ∈ okeys o.
Proof.
  rewrite okeys_oset_perm. destruct (ohas k o) eqn:Hh.
  - apply ohas_true_iff in Hh. split; [auto | intros [->|]; auto].
  - apply elem_of_cons.
Qed.

Lemma NoDup_okeys_oset k v o : NoDup (okeys o) -> NoDup (okeys (oset k v o)).
Proof.
  intros Hnd. rewrite okeys_oset_perm. destruct (ohas k o) eqn:Hh; [done|].
  apply ohas_false_iff in Hh. by apply NoDup_cons.
Qed.

Lemma okeys_mset k v o :
  okeys (mset k v o) = if ohas k o then okeys o else okeys o ++ [k].
Proof.
  unfold mset. destruct (ohas k o).
  - apply okeys_oreplace.
  - by rewrite okeys_app.
Qed.

Lemma elem_of_okeys_mset k k' v o :
  k' ∈ okeys (mset k v o) <-> k' = k \/ k' ∈ okeys o.
Proof.
  rewrite okeys_mset. destruct (ohas k o) eqn:Hh.
  - apply ohas_true_iff in Hh. split; [auto | intros [->|]; auto].
  - rewrite elem_of_app, list_elem_of_singleton. tauto.
Qed.

Lemma NoDup_okeys_mset k v o : NoDup (okeys o) -> NoDup (okeys (mset k v o)).
Proof.
  intros Hnd. rewrite okeys_mset. destruct (ohas k o) eqn:Hh; [done|].
  apply ohas_false_iff in Hh. apply NoDup_app. split_and!; [done| |apply NoDup_singleton].
  intros x Hx ->%list_elem_of_singleton. done.
Qed.

(** Two property lists with the same names in the same order and the
    same value under every name are equal. *)
Lemma props_ext o1 o2 :
  NoDup (okeys o1) -> okeys o1 = okeys o2 ->
  (forall k, oget k o1 = oget k o2) -> o1 = o2.
Proof.
  revert o2. induction o1 as [|[k1 v1] o1 IH]; intros [|[k2 v2] o2]; simpl;
    try done.
  intros Hnd [= <- Hk] Hget. apply NoDup_cons in Hnd as [Hni Hnd].
  pose proof (Hget k1) as H1. simpl in H1. rewrite String.eqb_refl in H1.
  injection H1 as <-. f_equal. apply IH; [done..|].
  intros k. specialize (Hget k). simpl in Hget.
  destruct (String.eqb_spec k k1) as [Heq|]; [|done].
  rewrite Heq. apply oget_None_iff in Hni as Hn1. rewrite Hn1. symmetry.
  apply oget_None_iff. by rewrite <- Hk.
Qed.

Lemma array_index_inj k k' i :
  array_index k = Some i -> array_index k' = Some i -> k = k'.
Proof.
  unfold array_index. intros H1 H2.
  destruct (NilZero.uint_of_string k) as [d|]; [|done].
  destruct (NilZero.uint_of_string k') as [d'|]; [|done].
  simpl in *.
  destruct (String.eqb_spec (NilZero.string_of_uint (N.to_uint (N.of_uint d))) k)
    as [E1|]; [|done].
  destruct (String.eqb_spec (NilZero.string_of_uint (N.to_uint (N.of_uint d'))) k')
    as [E2|]; [|done].
  simpl in *.
  destruct (N.of_uint d <? 4294967295)%N; [|done].
  destruct (N.of_uint d' <? 4294967295)%N; [|done].
  congruence.
Qed.

Lemma js_ordered_nil : js_ordered (@nil (string * A)).
Proof. split; [apply NoDup_nil_2 | apply SSorted_nil]. Qed.

Lemma key_before_index_trans k i x y :
  array_index k = Some i -> array_index x = Some y -> (i < y)%N ->
  forall z, key_before x z -> key_before k z.
Proof.
  intros Hk Hx Hlt z. unfold key_before. rewrite Hk, Hx.
  destruct (array_index z); [lia | done].
Qed.

Lemma sorted_oinsert_index i k v o :
  array_index k = Some i -> k ∉ okeys o ->
  StronglySorted key_before (okeys o) ->
  StronglySorted key_before (okeys (oinsert_index i k v o)).
Proof.
  intros Hk. induction o as [|[k1 v1] o IH]; simpl.
  - intros _ _. repeat constructor.
  - intros [Hne Hni]%not_elem_of_cons [Hall Hs]%StronglySorted_cons.
    destruct (array_index k1) as [j|] eqn:Hk1.
    + destruct (N.ltb_spec j i) as [Hlt|Hge]; simpl.
      * apply StronglySorted_cons. split; [|by apply IH].
        rewrite okeys_oinsert_index. apply Forall_cons. split; [|done].
        unfold key_before. by rewrite Hk1, Hk.
      * assert (i <> j) as Hij.
        { intros ->. apply Hne. eapply array_index_inj; eauto. }
        simpl. apply StronglySorted_cons. split.
        -- apply Forall_cons. split.
           ++ unfold key_before. rewrite Hk, Hk1. lia.
           ++ eapply Forall_impl; [exact Hall|].
              apply key_before_index_trans with (i := i) (y := j); [done..|lia].
        -- by apply StronglySorted_cons.
    + simpl. apply StronglySorted_cons. split; [|by apply StronglySorted_cons].
      apply Forall_cons. split.
      * unfold key_before. by rewrite Hk, Hk1.
      * eapply Forall_impl; [exact Hall|]. intros z. unfold key_before.
        rewrite Hk, Hk1. by destruct (array_index z).
Qed.

(** Writing a property keeps the enumeration order. *)
Lemma js_ordered_oset k v o : js_ordered o -> js_ordered (oset k v o).
Proof.
  intros [Hnd Hs]. split; [by apply NoDup_okeys_oset|].
  unfold oset. destruct (ohas k o) eqn:Hh.
  - by rewrite okeys_oreplace.
  - apply ohas_false_iff in Hh. destruct (array_index k) as [i|] eqn:Hk.
    + by apply sorted_oinsert_index.
    + rewrite okeys_app. apply StronglySorted_app_2; [|done|repeat constructor].
      simpl. intros x1 x2 _ Hx2. apply list_elem_of_singleton in Hx2.
      subst x2. unfold key_before. rewrite Hk. by destruct (array_index x1).
Qed.

Lemma js_ordered_oassign d s : js_ordered d -> js_ordered (oassign d s).
Proof.
  unfold oassign. revert d. induction s as [|[k v] s IH]; simpl; [done|].
  intros d Hd. by apply IH, js_ordered_oset.
Qed.

Lemma js_ordered_ocopy o : js_ordered (ocopy o).
Proof. apply js_ordered_oassign, js_ordered_nil. Qed.

Lemma js_ordered_spread2 a b : js_ordered (spread2 a b).
Proof. apply js_ordered_oassign, js_ordered_ocopy. Qed.

Lemma oinsert_index_last i k v o :
  (forall x, x ∈ okeys o -> exists j, array_index x = Some j /\ (j < i)%N) ->
  oinsert_index i k v o = o ++ [(k, v)].
Proof.
  induction o as [|[k1 v1] o IH]; simpl; [done|].
  intros H. destruct (H k1) as (j & -> & Hlt); [by left|].
  apply N.ltb_lt in Hlt as ->. f_equal. apply IH.
  intros x Hx. apply H. by right.
Qed.

(** A new property that belongs last is written last. *)
Lemma oset_last k v o : js_ordered (o ++ [(k, v)]) -> oset k v o = o ++ [(k, v)].
Proof.
  intros [Hnd Hs]. rewrite okeys_app in Hnd, Hs. simpl in *.
  apply NoDup_app in Hnd as (_ & Hni & _).
  assert (k ∉ okeys o) as Hfresh.
  { intros Hin. apply (Hni k Hin). by left. }
  unfold oset. apply ohas_false_iff in Hfresh as ->.
  destruct (array_index k) as [i|] eqn:Hk; [|done].
  apply oinsert_index_last. intros x Hx.
  pose proof (StronglySorted_app_1_elem_of _ _ _ x k Hs Hx) as Hb.
  unfold key_before in Hb. rewrite Hk in Hb.
  destruct (array_index x) as [j|]; [|destruct Hb; by left].
  exists j. split; [done|]. apply Hb. by left.
Qed.

Lemma oassign_ordered p rest : js_ordered (p ++ rest) -> oassign p rest = p ++ rest.
Proof.
  unfold oassign. revert p. induction rest as [|[k v] rest IH]; simpl; intros p H.
  - by rewrite app_nil_r.
  - replace (p ++ (k, v) :: rest) with ((p ++ [(k, v)]) ++ rest) in *
      by (by rewrite <- app_assoc).
    rewrite oset_last; [by apply IH|].
    destruct H as [Hnd Hs]. rewrite okeys_app in Hnd, Hs. split.
    + by apply NoDup_app in Hnd as (? & _ & _).
    + by apply StronglySorted_app_1_l in Hs.
Qed.

(** Copying an object gives the same object. *)
Lemma ocopy_ordered o : js_ordered o -> ocopy o = o.
Proof. intros H. by apply (oassign_ordered []). Qed.

Lemma oassign_app d s1 s2 : oassign d (s1 ++ s2) = oassign (oassign d s1) s2.
Proof. unfold oassign. apply fold_left_app. Qed.

Lemma oassign_cons d k v s : oassign d ((k, v) :: s) = oassign (oset k v d) s.
Proof. done. Qed.

(** A field after a spread: the last value the source gives it, else
    the value it had. *)
Lemma oget_oassign k d s :
  oget k (oassign d s)
  = match oget k (rev s) with Some v => Some v | None => oget k d end.
Proof.
  revert d. induction s as [|[k1 v1] s IH]; intros d; [done|].
  rewrite oassign_cons, IH. simpl rev. rewrite oget_app_fresh.
  destruct (oget k (rev s)); [done|]. rewrite oget_oset.
  by destruct (String.eqb k k1).
Qed.

(** On an object the last property of a name is the property of that
    name. *)
Lemma olast_NoDup k o : NoDup (okeys o) -> olast k o = oget k o.
Proof.
  intros Hnd. unfold olast. destruct (oget k o) as [v|] eqn:E.
  - apply oget_elem_NoDup.
    + unfold okeys. rewrite map_rev. by rewrite <- Permutation_rev.
    + apply oget_Some_elem in E. apply list_elem_of_In, in_rev.
      rewrite rev_involutive. by apply list_elem_of_In.
  - apply oget_None_iff. apply oget_None_iff in E. unfold okeys in *.
    rewrite map_rev. intros Hin. apply E.
    apply list_elem_of_In, in_rev. by apply list_elem_of_In.
Qed.

Lemma elem_of_okeys_oassign k d s :
  k ∈ okeys (oassign d s) <-> k ∈ okeys d \/ k ∈ okeys s.
Proof.
  revert d. induction s as [|[k1 v1] s IH]; intros d.
  - simpl. split; [auto | intros [|H]; [done | by apply elem_of_nil in H]].
  - rewrite oassign_cons, IH, elem_of_okeys_oset. simpl.
    rewrite elem_of_cons. tauto.
Qed.

Lemma okeys_oassign_present d s :
  (forall k, k ∈ okeys s -> k ∈ okeys d) -> okeys (oassign d s) = okeys d.
Proof.
  revert d. induction s as [|[k1 v1] s IH]; intros d H; [done|].
  rewrite oassign_cons, IH.
  - apply okeys_oset_present, H. by left.
  - intros k Hk. apply elem_of_okeys_oset. right. apply H. by right.
Qed.

Lemma NoDup_okeys_oassign d s : NoDup (okeys d) -> NoDup (okeys (oassign d s)).
Proof.
  revert d. induction s as [|[k v] s IH]; intros d Hnd; [done|].
  rewrite oassign_cons. by apply IH, NoDup_okeys_oset.
Qed.

(** Spreading the same source a second time changes nothing. *)
Lemma oassign_idem d s :
  NoDup (okeys d) -> oassign (oassign d s) s = oassign d s.
Proof.
  intros Hnd. apply props_ext.
  - by do 2 apply NoDup_okeys_oassign.
  - apply okeys_oassign_present. intros k Hk.
    apply elem_of_okeys_oassign. by right.
  - intros k. rewrite !oget_oassign. by destruct (oget k (rev s)).
Qed.

End props.
End PropsFacts.

(** ** The merge of TableCard *)

Module MergeFacts.
Import JS TableCard PropsFacts.

Lemma fold_rows {M} (step : M -> value -> M) (records : list obj) (m : M) :
  fold_left (fun acc rec => fold_left step (rows_of rec) acc) records m
  = fold_left step (all_rows records) m.
Proof.
  revert m. induction records as [|rec records IH]; intros m; [done|].
  unfold all_rows. simpl. rewrite fold_left_app. apply IH.
Qed.

Lemma all_rows_app r1 r2 : all_rows (r1 ++ r2) = all_rows r1 ++ all_rows r2.
Proof. apply flat_map_app. Qed.

Lemma all_rows_filter records : all_rows (filter has_rows records) = all_rows records.
Proof.
  induction records as [|rec records IH]; [done|].
  rewrite filter_cons. unfold all_rows in *. simpl.
  destruct (decide (has_rows rec)) as [H|H]; simpl; [by rewrite IH|].
  rewrite IH. unfold has_rows, isArray, rows_of in *.
  destruct (oget "rows" rec) as [[]|]; try done.
Qed.

Lemma stream_merged_rows idx stored records :
  stream_merged idx stored records
  = fold_left (stream_step idx) (all_rows records) (ocopy (persisted stored)).
Proof. apply fold_rows. Qed.

Lemma http_map_rows idx records :
  http_map idx records = fold_left (http_step idx) (all_rows records) [].
Proof. apply fold_rows. Qed.

Section steps.
Context (idx : string).
Implicit Types (m : props obj) (rows : list value) (k : string).

Lemma oget_stream_step k m row :
  oget k (stream_step idx m row) = entry_step idx k (oget k m) row.
Proof.
  unfold stream_step, entry_step. rewrite oget_oset.
  destruct (String.eqb_spec k (row_key idx row)) as [->|]; done.
Qed.

Lemma oget_http_step k m row :
  oget k (http_step idx m row) = entry_step idx k (oget k m) row.
Proof.
  unfold http_step, entry_step, mget. rewrite oget_mset.
  destruct (String.eqb_spec k (row_key idx row)) as [->|]; done.
Qed.

Lemma oget_stream_rows k rows m :
  oget k (fold_left (stream_step idx) rows m)
  = fold_left (entry_step idx k) rows (oget k m).
Proof.
  revert m. induction rows as [|r rows IH]; intros m; [done|].
  simpl. by rewrite IH, oget_stream_step.
Qed.

Lemma oget_http_rows k rows m :
  oget k (fold_left (http_step idx) rows m)
  = fold_left (entry_step idx k) rows (oget k m).
Proof.
  revert m. induction rows as [|r rows IH]; intros m; [done|].
  simpl. by rewrite IH, oget_http_step.
Qed.

Lemma elem_of_okeys_stream_rows k rows m :
  k ∈ okeys (fold_left (stream_step idx) rows m)
  <-> k ∈ okeys m \/ exists row, row ∈ rows /\ row_key idx row = k.
Proof.
  revert m. induction rows as [|r rows IH]; intros m; simpl.
  - split; [auto | intros [|(row & H & _)]; [done | by apply elem_of_nil in H]].
  - rewrite IH. unfold stream_step. rewrite elem_of_okeys_oset. split.
    + intros [[->|]|(row & H & E)]; [right; exists r | by left | right; exists row].
      * split; [by left | done].
      * split; [by right | done].
    + intros [|(row & [->|H]%elem_of_cons & E)]; [by left; right | |].
      * left. by left.
      * right. by exists row.
Qed.

Lemma elem_of_okeys_http_rows k rows m :
  k ∈ okeys (fold_left (http_step idx) rows m)
  <-> k ∈ okeys m \/ exists row, row ∈ rows /\ row_key idx row = k.
Proof.
  revert m. induction rows as [|r rows IH]; intros m; simpl.
  - split; [auto | intros [|(row & H & _)]; [done | by apply elem_of_nil in H]].
  - rewrite IH. unfold http_step. rewrite elem_of_okeys_mset. split.
    + intros [[->|]|(row & H & E)]; [right; exists r | by left | right; exists row].
      * split; [by left | done].
      * split; [by right | done].
    + intros [|(row & [->|H]%elem_of_cons & E)]; [by left; right | |].
      * left. by left.
      * right. by exists row.
Qed.

Lemma js_ordered_stream_rows rows m :
  js_ordered m -> js_ordered (fold_left (stream_step idx) rows m).
Proof.
  revert m. induction rows as [|r rows IH]; intros m Hm; [done|].
  simpl. by apply IH, js_ordered_oset.
Qed.

Lemma NoDup_okeys_stream_rows rows m :
  NoDup (okeys m) -> NoDup (okeys (fold_left (stream_step idx) rows m)).
Proof.
  revert m. induction rows as [|r rows IH]; intros m Hm; [done|].
  simpl. by apply IH, NoDup_okeys_oset.
Qed.

Lemma NoDup_okeys_http_rows rows m :
  NoDup (okeys m) -> NoDup (okeys (fold_left (http_step idx) rows m)).
Proof.
  revert m. induction rows as [|r rows IH]; intros m Hm; [done|].
  simpl. by apply IH, NoDup_okeys_mset.
Qed.

Lemma okeys_stream_rows_present rows m :
  (forall row, row ∈ rows -> row_key idx row ∈ okeys m) ->
  okeys (fold_left (stream_step idx) rows m) = okeys m.
Proof.
  revert m. induction rows as [|r rows IH]; intros m H; [done|].
  simpl. rewrite IH.
  - apply okeys_oset_present, H. by left.
  - intros row Hrow. unfold stream_step. apply elem_of_okeys_oset.
    right. apply H. by right.
Qed.

Lemma fields_for_untouched k rows :
  touched idx k rows = false -> fields_for idx k rows = [].
Proof.
  unfold touched, fields_for. induction rows as [|r rows IH]; simpl; [done|].
  destruct (String.eqb k (row_key idx r)); simpl; [done|]. apply IH.
Qed.

(** The entry of a key after a run of rows: untouched when no row has
    the key, otherwise the fields of the rows of that key spread in order
    over a copy of what was there. *)
Lemma entry_rows k rows entry :
  fold_left (entry_step idx k) rows entry
  = if touched idx k rows
    then Some (oassign (ocopy (or_empty entry)) (fields_for idx k rows))
    else entry.
Proof.
  revert entry. induction rows as [|r rows IH]; intros entry; [done|].
  change (fold_left (entry_step idx k) (r :: rows) entry)
    with (fold_left (entry_step idx k) rows (entry_step idx k entry r)).
  change (touched idx k (r :: rows))
    with (String.eqb k (row_key idx r) || touched idx k rows).
  change (fields_for idx k (r :: rows))
    with ((if String.eqb k (row_key idx r) then own_props r else [])
          ++ fields_for idx k rows).
  rewrite IH. unfold entry_step.
  destruct (String.eqb k (row_key idx r)); simpl; [|done].
  destruct (touched idx k rows) eqn:Ht.
  - rewrite oassign_app. f_equal. f_equal.
    apply ocopy_ordered, js_ordered_spread2.
  - by rewrite (fields_for_untouched _ _ Ht), app_nil_r.
Qed.

Lemma entry_rows_idem k rows entry :
  fold_left (entry_step idx k) rows (fold_left (entry_step idx k) rows entry)
  = fold_left (entry_step idx k) rows entry.
Proof.
  rewrite !entry_rows. destruct (touched idx k rows); [|done]. simpl.
  f_equal. rewrite ocopy_ordered by apply js_ordered_oassign, js_ordered_ocopy.
  apply oassign_idem. apply js_ordered_ocopy.
Qed.

(** Running the same rows a second time changes nothing. *)
Lemma stream_rows_idem rows m :
  NoDup (okeys m) ->
  fold_left (stream_step idx) rows (fold_left (stream_step idx) rows m)
  = fold_left (stream_step idx) rows m.
Proof.
  intros Hm. apply props_ext.
  - by do 2 apply NoDup_okeys_stream_rows.
  - apply okeys_stream_rows_present. intros row Hrow.
    apply elem_of_okeys_stream_rows. right. by exists row.
  - intros k. rewrite !oget_stream_rows. apply entry_rows_idem.
Qed.

Lemma untouched_entry k rows m :
  touched idx k rows = false ->
  oget k (fold_left (stream_step idx) rows m) = oget k m.
Proof. intros H. by rewrite oget_stream_rows, entry_rows, H. Qed.


End steps.
End MergeFacts.

(** ** Page, slice and the final pass of TableCard *)

Module ViewFacts.
Import JS TableCard.

(** [slice] between two indices in order is [take] after [drop]. *)
Lemma slice_take_drop {A} (l : list A) (start stop : Z) :
  0 <= start <= stop ->
  slice l start stop
  = take (Z.to_nat stop - Z.to_nat start) (drop (Z.to_nat start) l).
Proof.
  intros [H0 Hle]. unfold slice, slice_index.
  destruct (Z.ltb_spec start 0) as [|_]; [lia|].
  destruct (Z.ltb_spec stop 0) as [|_]; [lia|].
  set (len := Z.of_nat (length l)).
  destruct (Z.le_gt_cases start len) as [Hs|Hs].
  - rewrite (Z.min_l start len) by done.
    destruct (Z.le_gt_cases stop len) as [He|He].
    + rewrite (Z.min_l stop len) by done. f_equal. lia.
    + rewrite (Z.min_r stop len) by lia.
      rewrite !firstn_all2; [done | |]; rewrite length_skipn; lia.
  - rewrite (Z.min_r start len), (Z.min_r stop len) by lia.
    rewrite skipn_all2 by lia. rewrite (skipn_all2 (n := Z.to_nat start)) by lia.
    by rewrite !firstn_nil.
Qed.

Lemma lookup_take_drop {A} (l : list A) (start stop i : nat) :
  (take (stop - start) (drop start l)) !! i
  = if decide (start + i < stop)%nat then l !! (start + i)%nat else None.
Proof.
  destruct (decide (start + i < stop)%nat) as [Hlt|Hge].
  - rewrite lookup_take_lt by lia. by rewrite lookup_drop.
  - apply lookup_take_ge. lia.
Qed.

Lemma page_pos storedPage : 1 <= page storedPage.
Proof.
  unfold page. destruct storedPage as [p|]; [|lia].
  destruct (Z.ltb_spec 0 p); lia.
Qed.

Lemma ceil_div_spec a b : 0 < b -> b * (ceil_div a b - 1) < a <= b * ceil_div a b.
Proof.
  intros Hb. unfold ceil_div.
  pose proof (Z.div_mod (- a) b ltac:(lia)) as Hdm.
  pose proof (Z.mod_pos_bound (- a) b Hb) as Hm. nia.
Qed.

Lemma totalPages_pos count ps : 1 <= totalPages count ps.
Proof. unfold totalPages. lia. Qed.

(** The stored page after the clamp effect, read back as [page] reads
    it, is the smaller of the page and the number of pages. *)
Lemma clamp_effect_page count p ps :
  1 <= p ->
  page (match clamp_effect count p ps with Some q => Some q | None => Some p end)
  = Z.min p (totalPages count ps).
Proof.
  intros Hp. unfold clamp_effect. pose proof (totalPages_pos count ps) as Ht.
  destruct (Z.ltb_spec (totalPages count ps) p) as [Hlt|Hge]; unfold page.
  - destruct (Z.ltb_spec 0 (totalPages count ps)); lia.
  - destruct (Z.ltb_spec 0 p); lia.
Qed.

Section dedupe.
Context (idx : string).

(** What the final pass adds to [out], for any [seen] it starts from. *)
Lemma dedupe_fold rows : forall seen out,
  exists new,
    snd (fold_left (dedupe_step idx) rows (seen, out)) = (out ++ new)
    /\ sublist new rows
    /\ NoDup (map (merged_key idx) new)
    /\ (forall r, r ∈ new <->
          exists pre post, rows = pre ++ r :: post
            /\ (merged_key idx r ∉ seen) /\ (merged_key idx r ∉ map (merged_key idx) pre)).
Proof.
  induction rows as [|x rows IH]; intros seen out.
  - exists []. simpl. rewrite app_nil_r. split_and!; [done | done | constructor |].
    intros r. split; [intros H; by apply elem_of_nil in H|].
    intros (pre & post & H & _). by destruct pre.
  - simpl. unfold dedupe_step at 2. simpl.
    destruct (decide (merged_key idx x ∈ seen)) as [Hin|Hni].
    + destruct (IH seen out) as (new & Hout & Hsub & Hnd & Hchar).
      exists new. split_and!; [done | by apply sublist_cons | done |].
      intros r. rewrite Hchar. split.
      * intros (pre & post & -> & Hs & Hp). exists (x :: pre), post.
        split_and!; [done | done |]. simpl. apply not_elem_of_cons.
        split; [|done]. intros E. apply Hs. by rewrite E.
      * intros (pre & post & E & Hs & Hp). destruct pre as [|y pre].
        -- simpl in E. injection E as -> ->. done.
        -- simpl in E. injection E as -> ->. exists pre, post.
           simpl in Hp. apply not_elem_of_cons in Hp as [_ Hp]. done.
    + destruct (IH ({[merged_key idx x]} ∪ seen) (out ++ [x]))
        as (new & Hout & Hsub & Hnd & Hchar).
      exists (x :: new). split_and!.
      * rewrite Hout. by rewrite <- app_assoc.
      * by apply sublist_skip.
      * simpl. apply NoDup_cons. split; [|done].
        intros (r & E & Hr)%list_elem_of_fmap. apply Hchar in Hr
          as (pre & post & _ & Hs & _). apply Hs. rewrite <- E.
        apply elem_of_union. left. by apply elem_of_singleton.
      * intros r. rewrite elem_of_cons, Hchar. split.
        -- intros [->|(pre & post & -> & Hs & Hp)].
           ++ exists [], rows. split_and!; [done | done |]. apply not_elem_of_nil.
           ++ rewrite not_elem_of_union, not_elem_of_singleton in Hs.
              destruct Hs as [Hne Hs].
              exists (x :: pre), post. split_and!; [done | done |].
              simpl. apply not_elem_of_cons. done.
        -- intros (pre & post & E & Hs & Hp). destruct pre as [|y pre].
           ++ simpl in E. injection E as -> ->. by left.
           ++ simpl in E. injection E as -> ->. right. exists pre, post.
              simpl in Hp. apply not_elem_of_cons in Hp as [Hne Hp].
              split_and!; [done | | done].
              rewrite not_elem_of_union, not_elem_of_singleton. done.
Qed.

End dedupe.
End ViewFacts.

(** ** Sorting and the series of AreaChartComponent *)

Module SeriesFacts.
Import JS AreaChart PropsFacts.

Section sort.
Context {A : Type} (cmp : A -> A -> Z).

Lemma sort_insert_perm x l : sort_insert cmp x l ≡ₚ x :: l.
Proof.
  induction l as [|y l IH]; simpl; [done|].
  destruct (cmp x y <=? 0); [done|]. rewrite IH. apply Permutation_swap.
Qed.

Lemma sort_perm l : sort cmp l ≡ₚ l.
Proof.
  unfold sort. induction l as [|x l IH]; simpl; [done|].
  by rewrite sort_insert_perm, IH.
Qed.

Context (R : relation A).
Hypothesis R_le : forall a b, cmp a b <= 0 -> R a b.
Hypothesis R_gt : forall a b, 0 < cmp a b -> R b a.

Lemma sort_insert_sorted x l : Sorted R l -> Sorted R (sort_insert cmp x l).
Proof.
  induction l as [|y l IH]; simpl; intros Hs.
  - repeat constructor.
  - destruct (Z.leb_spec (cmp x y) 0) as [Hle|Hgt].
    + constructor; [done|]. constructor. by apply R_le.
    + apply Sorted_inv in Hs as [Hs Hhd]. constructor; [by apply IH|].
      destruct l as [|z l]; simpl.
      * constructor. by apply R_gt.
      * destruct (cmp x z <=? 0); constructor; [by apply R_gt|].
        by apply HdRel_inv in Hhd.
Qed.

Lemma sort_sorted l : Sorted R (sort cmp l).
Proof.
  unfold sort. induction l as [|x l IH]; simpl; [constructor|].
  by apply sort_insert_sorted.
Qed.

End sort.

(** A list sorted for a relation that is transitive on its elements is
    strongly sorted. *)
Lemma Sorted_StronglySorted_on {A} (R : relation A) (P : A -> Prop) l :
  (forall a b c, P a -> P b -> P c -> R a b -> R b c -> R a c) ->
  Forall P l -> Sorted R l -> StronglySorted R l.
Proof.
  intros Htrans. induction l as [|x l IH]; intros Hall Hs; [constructor|].
  apply Forall_cons in Hall as [Hx Hall].
  apply Sorted_inv in Hs as [Hs Hhd].
  constructor; [by apply IH|].
  specialize (IH Hall Hs). clear Hs.
  induction IH as [|y l Hss _ Hally]; [constructor|].
  apply Forall_cons in Hall as [Hy Hall]. apply HdRel_inv in Hhd.
  constructor; [done|].
  rewrite Forall_forall in Hally, Hall.
  apply Forall_forall. intros z Hz.
  apply (Htrans x y z); auto.
Qed.

(** A sorted list without two elements of the same key is sorted for
    the strict order. *)
Lemma Sorted_strict {A K} (R R' : relation A) (key : A -> K) l :
  (forall a b, R a b -> key a <> key b -> R' a b) ->
  NoDup (map key l) -> Sorted R l -> Sorted R' l.
Proof.
  intros Hstrict. induction l as [|x l IH]; intros Hnd Hs; [constructor|].
  simpl in Hnd. apply NoDup_cons in Hnd as [Hni Hnd].
  apply Sorted_inv in Hs as [Hs Hhd]. constructor; [by apply IH|].
  destruct l as [|y l]; constructor. apply HdRel_inv in Hhd.
  apply Hstrict; [done|]. intros E. apply Hni. rewrite E. by left.
Qed.

Lemma ltb_compare a b : String.ltb a b = true <-> String.compare a b = Lt.
Proof. unfold String.ltb. by destruct (String.compare a b). Qed.

Lemma ltb_antisym a b : String.ltb a b = true -> String.ltb b a = false.
Proof.
  rewrite ltb_compare. unfold String.ltb. rewrite (String.compare_antisym a b).
  by destruct (String.compare b a).
Qed.

Lemma ltb_total a b :
  String.ltb a b = false -> String.ltb b a = false -> a = b.
Proof.
  unfold String.ltb. rewrite (String.compare_antisym a b).
  destruct (String.compare b a) eqn:E; simpl; try done.
  intros _ _. symmetry. by apply String.compare_eq_iff.
Qed.

Lemma compare_refl a : String.compare a a = Eq.
Proof.
  induction a as [|c a IH]; simpl; [done|].
  unfold Ascii.compare. by rewrite N.compare_refl.
Qed.

Lemma ltb_leb a b : String.ltb a b = true <-> String.leb a b = true /\ a <> b.
Proof.
  unfold String.ltb, String.leb. destruct (String.compare a b) eqn:E.
  - apply String.compare_eq_iff in E. split; [done | intros [_ ?]; done].
  - split; [|done]. intros _. split; [done|]. intros ->.
    rewrite compare_refl in E. done.
  - split; [done | intros [? _]; done].
Qed.

Lemma ltb_trans a b c :
  String.ltb a b = true -> String.ltb b c = true -> String.ltb a c = true.
Proof.
  intros Hab Hbc. pose proof (ltb_antisym _ _ Hab) as Hba.
  apply ltb_leb in Hab as [Hab Hne], Hbc as [Hbc Hne'].
  apply ltb_leb. split.
  - apply Is_true_true. apply Is_true_true in Hab, Hbc.
    by apply (transitivity (R := String.le) (y := b)).
  - intros ->. assert (b = c); [|done].
    apply String.leb_antisym; done.
Qed.

(** The comparator and the order of the specification. *)
Lemma compare_points_le a b :
  compare_points a b <= 0 -> point_key a <> point_key b -> point_before a b.
Proof.
  unfold compare_points, point_before, point_key.
  destruct (time a) as [[| | ta | | |]|] eqn:Ea;
    destruct (time b) as [[| | tb | | |]|] eqn:Eb;
    try (case_ltb; intros Hle Hne; first [done | lia | destruct Hne; by apply ltb_total]).
  intros Hle Hne. assert (ta <> tb) by (intros ->; done). lia.
Qed.

Lemma compare_points_gt a b : 0 < compare_points a b -> compare_points b a <= 0.
Proof.
  unfold compare_points.
  destruct (time a) as [[| | ta | | |]|] eqn:Ea;
    destruct (time b) as [[| | tb | | |]|] eqn:Eb;
    try (case_ltb; intros Hlt; first [done | lia]).
  lia.
Qed.

Lemma point_before_asym a b : point_before a b -> point_before b a -> False.
Proof.
  unfold point_before.
  destruct (time a) as [[| | ta | | |]|] eqn:Ea;
    destruct (time b) as [[| | tb | | |]|] eqn:Eb;
    try (intros H1 H2; apply ltb_antisym in H1; congruence).
  lia.
Qed.

Lemma point_before_trans_numeric a b c :
  numeric a = true -> numeric b = true -> numeric c = true ->
  point_before a b -> point_before b c -> point_before a c.
Proof.
  unfold numeric, typeof_number, point_before.
  destruct (time a) as [[]|]; try done.
  destruct (time b) as [[]|]; try done.
  destruct (time c) as [[]|]; try done. lia.
Qed.

Lemma point_before_trans_other a b c :
  numeric a = false -> numeric b = false -> numeric c = false ->
  point_before a b -> point_before b c -> point_before a c.
Proof.
  unfold numeric, typeof_number, point_before.
  destruct (time a) as [[]|]; try done;
  destruct (time b) as [[]|]; try done;
  destruct (time c) as [[]|]; try done; intros _ _ _; apply ltb_trans.
Qed.

(** The [Map] of the deduplication. *)
Lemma oget_fold_mset {A} (key : A -> string) (l : list A) (m : props A) k :
  oget k (fold_left (fun m x => mset (key x) x m) l m)
  = match olast k (map (fun x => (key x, x)) l) with
    | Some v => Some v
    | None => oget k m
    end.
Proof.
  unfold olast. revert m. induction l as [|x l IH]; intros m; [done|].
  simpl. rewrite IH, oget_app_fresh.
  destruct (oget k (rev _)); [done|]. rewrite oget_mset.
  by destruct (String.eqb k (key x)).
Qed.

Lemma NoDup_fold_mset {A} (key : A -> string) (l : list A) (m : props A) :
  NoDup (okeys m) -> NoDup (okeys (fold_left (fun m x => mset (key x) x m) l m)).
Proof.
  revert m. induction l as [|x l IH]; intros m Hm; [done|].
  simpl. by apply IH, NoDup_okeys_mset.
Qed.

Lemma elem_of_okeys_fold_mset {A} (key : A -> string) (l : list A) (m : props A) k :
  k ∈ okeys (fold_left (fun m x => mset (key x) x m) l m)
  <-> k ∈ okeys m \/ k ∈ map key l.
Proof.
  revert m. induction l as [|x l IH]; intros m; simpl.
  - split; [auto | intros [|H]; [done | by apply elem_of_nil in H]].
  - rewrite IH, elem_of_okeys_mset, elem_of_cons. tauto.
Qed.

(** Every element has a first one of its key before or at it. *)
Lemma first_of_key {A K} `{EqDecision K} (key : A -> K) (l : list A) x :
  x ∈ l ->
  exists pre y post, l = pre ++ y :: post /\ key y = key x /\ (key y ∉ map key pre).
Proof.
  induction l as [|z l IH]; intros Hin; [by apply elem_of_nil in Hin|].
  destruct (decide (key z = key x)) as [E|Hne].
  - exists [], z, l. split_and!; [done | done | apply not_elem_of_nil].
  - apply elem_of_cons in Hin as [->|Hin]; [done|].
    destruct (IH Hin) as (pre & y & post & -> & Ey & Hni).
    exists (z :: pre), y, post. split_and!; [done | done |].
    simpl. apply not_elem_of_cons. split; [congruence | done].
Qed.

Lemma oget_Some_split {A} k (v : A) (o : props A) :
  oget k o = Some v
  <-> exists pre post, o = pre ++ (k, v) :: post /\ (k ∉ okeys pre).
Proof.
  induction o as [|[k1 v1] o IH]; simpl.
  - split; [done | intros (pre & post & H & _); by destruct pre].
  - destruct (String.eqb_spec k k1) as [->|Hne].
    + split.
      * intros [= ->]. exists [], o. split; [done | apply not_elem_of_nil].
      * intros (pre & post & E & Hni). destruct pre as [|[k2 v2] pre].
        -- by injection E as ->.
        -- injection E as -> -> ->. destruct Hni. by left.
    + rewrite IH. split.
      * intros (pre & post & -> & Hni). exists ((k1, v1) :: pre), post.
        split; [done|]. simpl. apply not_elem_of_cons. done.
      * intros (pre & post & E & Hni). destruct pre as [|[k2 v2] pre].
        -- injection E as <- _. done.
        -- injection E as -> -> ->. exists pre, post. split; [done|].
           simpl in Hni. by apply not_elem_of_cons in Hni as [_ ?].
Qed.

Lemma olast_keyed_split {A} (key : A -> string) (l : list A) k x :
  olast k (map (fun x => (key x, x)) l) = Some x
  <-> key x = k /\ exists pre post, l = pre ++ x :: post /\ (k ∉ map key post).
Proof.
  unfold olast. rewrite oget_Some_split. split.
  - intros (pre & post & E & Hni).
    apply (f_equal (@rev _)) in E. rewrite rev_involutive in E.
    rewrite rev_app_distr in E. simpl in E. rewrite <- app_assoc in E. simpl in E.
    apply fmap_app_inv in E as (l1 & l2' & E1 & E2 & ->).
    destruct l2' as [|y l2]; [done|]. simpl in E2. injection E2 as Ek Ey E2.
    subst y. split; [done|]. exists l1, l2. split; [done|].
    intros Hin. apply Hni. unfold okeys.
    apply (f_equal (@rev _)) in E2. rewrite rev_involutive in E2.
    rewrite E2. rewrite <- map_rev, map_map. simpl.
    apply list_elem_of_In. rewrite map_rev. apply -> in_rev.
    by apply list_elem_of_In.
  - intros (<- & pre & post & -> & Hni).
    exists (rev (map (fun x => (key x, x)) post)),
           (rev (map (fun x => (key x, x)) pre)).
    split.
    + rewrite map_app. simpl. rewrite rev_app_distr. simpl.
      by rewrite <- app_assoc.
    + unfold okeys. rewrite <- map_rev, map_map. simpl.
      intros Hin. apply Hni. apply list_elem_of_In in Hin.
      rewrite map_rev in Hin. apply in_rev in Hin.
      by apply list_elem_of_In.
Qed.

(** The values of the [Map]: for each key the last point that has it. *)
Lemma elem_of_keyed pt merged :
  pt ∈ mvalues (keyed merged)
  <-> exists pre post, merged = pre ++ pt :: post
        /\ (point_key pt ∉ map point_key post).
Proof.
  unfold keyed, mvalues.
  assert (NoDup (okeys (fold_left (fun m x => mset (point_key x) x m) merged [])))
    as Hnd by apply NoDup_fold_mset, NoDup_nil_2.
  split.
  - intros ((k & pt') & -> & Hin)%list_elem_of_fmap. simpl.
    apply (oget_elem_NoDup _ _ _ Hnd) in Hin. rewrite oget_fold_mset in Hin.
    destruct (olast k _) eqn:E; [|done]. injection Hin as ->.
    apply olast_keyed_split in E as [<- H]. done.
  - intros H.
    assert (olast (point_key pt) (map (fun x => (point_key x, x)) merged) = Some pt)
      as E by (by apply olast_keyed_split).
    apply list_elem_of_fmap. exists (point_key pt, pt). split; [done|].
    apply oget_Some_elem. by rewrite oget_fold_mset, E.
Qed.

Lemma keys_of_keyed merged :
  map point_key (mvalues (keyed merged)) = okeys (keyed merged).
Proof.
  unfold keyed, mvalues, okeys.
  assert (NoDup (okeys (fold_left (fun m x => mset (point_key x) x m) merged [])))
    as Hnd by apply NoDup_fold_mset, NoDup_nil_2.
  rewrite map_map. apply map_ext_in. intros [k pt] Hin. simpl.
  apply list_elem_of_In in Hin.
  apply (oget_elem_NoDup _ _ _ Hnd) in Hin. rewrite oget_fold_mset in Hin.
  destruct (olast k _) eqn:E; [|done]. injection Hin as ->.
  by apply olast_keyed_split in E as [<- _].
Qed.

Lemma NoDup_keys_keyed merged : NoDup (map point_key (mvalues (keyed merged))).
Proof. rewrite keys_of_keyed. apply NoDup_fold_mset, NoDup_nil_2. Qed.

End SeriesFacts.

(** ** [JSON.stringify] loses nothing *)

Module JsonFacts.
Import JS.

Lemma sapp_cons c (s t : string) : String c s +:+ t = String c (s +:+ t).
Proof. done. Qed.

Lemma sapp_nil_l (t : string) : "" +:+ t = t.
Proof. done. Qed.



(** An induction principle that reaches the values inside arrays and
    objects. *)
Lemma value_ind_nested (P : value -> Prop) :
  P VNull -> (forall b, P (VBool b)) -> (forall n, P (VNum n)) ->
  (forall s, P (VStr s)) ->
  (forall l, Forall P l -> P (VArr l)) ->
  (forall f, Forall (fun kv => P (snd kv)) f -> P (VObj f)) ->
  forall v, P v.
Proof.
  intros Hnull Hbool Hnum Hstr Harr Hobj.
  fix IH 1. intros [| b | n | s | l | f].
  - exact Hnull.
  - apply Hbool.
  - apply Hnum.
  - apply Hstr.
  - apply Harr. induction l as [|x l IHl]; constructor; [apply IH | exact IHl].
  - apply Hobj. induction f as [|[k x] f IHf]; constructor; [apply IH | exact IHf].
Qed.

(** *** Numbers *)

Lemma digits_inj d : forall d' r r',
  no_digit_head r -> no_digit_head r' ->
  NilEmpty.string_of_uint d +:+ r = NilEmpty.string_of_uint d' +:+ r' ->
  d = d' /\ r = r'.
Proof.
  induction d as [|d IH|d IH|d IH|d IH|d IH|d IH|d IH|d IH|d IH|d IH];
    intros [|d'|d'|d'|d'|d'|d'|d'|d'|d'|d'] r r' Hr Hr' E; simpl in E;
    rewrite ?sapp_cons, ?sapp_nil_l in E;
    try discriminate E;
    try (split; [done | exact E]);
    try (subst; simpl in *; discriminate);
    try (injection E as E; destruct (IH _ _ _ Hr Hr' E) as [-> ->]; done).
Qed.

Lemma show_Z_int n : show_Z n = NilEmpty.string_of_int (Z.to_int n).
Proof.
  unfold show_Z. destruct n as [|p|p]; simpl; [done| |];
    pose proof (Unsigned.to_uint_nonnil p) as Hnn;
    unfold NilZero.string_of_uint; by destruct (Pos.to_uint p).
Qed.

Lemma digits_head d r :
  d <> Decimal.Nil ->
  exists c s, NilEmpty.string_of_uint d +:+ r = String c s /\ is_digit c = true.
Proof. destruct d; intros H; try done; simpl; rewrite sapp_cons; eauto. Qed.


Lemma show_Z_inj_app n n' r r' :
  no_digit_head r -> no_digit_head r' ->
  show_Z n +:+ r = show_Z n' +:+ r' -> n = n' /\ r = r'.
Proof.
  intros Hr Hr'. rewrite !show_Z_int.
  assert (forall p q, NilEmpty.string_of_uint (Pos.to_uint p) +:+ r
                      <> String "-" q) as Hminus.
  { intros p q E.
    destruct (digits_head (Pos.to_uint p) r (Unsigned.to_uint_nonnil p))
      as (c & s & E' & Hc). rewrite E' in E. injection E as -> _. done. }
  assert (forall p q, NilEmpty.string_of_uint (Pos.to_uint p) +:+ r'
                      <> String "-" q) as Hminus'.
  { intros p q E.
    destruct (digits_head (Pos.to_uint p) r' (Unsigned.to_uint_nonnil p))
      as (c & s & E' & Hc). rewrite E' in E. injection E as -> _. done. }
  intros E.
  assert (Z.to_int n = Z.to_int n' /\ r = r') as [Hn ->].
  { destruct (Z.to_int n) as [d|d] eqn:En, (Z.to_int n') as [d'|d'] eqn:En';
      simpl in E; rewrite ?sapp_cons in E.
    - by destruct (digits_inj _ _ _ _ Hr Hr' E) as [-> ->].
    - exfalso. destruct n as [|p|p]; simpl in En; try done.
      + injection En as <-. done.
      + injection En as <-. by apply Hminus in E.
    - exfalso. destruct n' as [|p|p]; simpl in En'; try done.
      + injection En' as <-. done.
      + injection En' as <-. symmetry in E. by apply Hminus' in E.
    - injection E as E. by destruct (digits_inj _ _ _ _ Hr Hr' E) as [-> ->]. }
  split; [|done]. by apply DecimalZ.to_int_inj.
Qed.

(** *** String literals *)






(** *** Values *)







End JsonFacts.

(** ** More on TableCard: keys, order, pages *)

Module TableFacts.
Import JS TableCard TableMore PropsFacts MergeFacts ViewFacts SeriesFacts JsonFacts.

Lemma elem_of_oreplace {A} k (v : A) (o : props A) x :
  x ∈ oreplace k v o -> x = (k, v) \/ x ∈ o.
Proof.
  induction o as [|[k1 v1] o IH]; simpl; [auto|].
  destruct (String.eqb_spec k k1) as [->|Hne].
  - intros [->|H]%elem_of_cons; [by left | right; by right].
  - intros [->|H]%elem_of_cons; [right; by left|].
    destruct (IH H) as [->|H']; [by left | right; by right].
Qed.

Lemma elem_of_oinsert_index {A} i k (v : A) (o : props A) x :
  x ∈ oinsert_index i k v o -> x = (k, v) \/ x ∈ o.
Proof.
  induction o as [|[k1 v1] o IH]; simpl.
  - intros ->%list_elem_of_singleton. by left.
  - destruct (array_index k1) as [j|].
    + destruct (j <? i)%N.
      * intros [->|H]%elem_of_cons; [right; by left|].
        destruct (IH H) as [->|H']; [by left | right; by right].
      * intros [->|H]%elem_of_cons; [by left | by right].
    + intros [->|H]%elem_of_cons; [by left | by right].
Qed.

(** What a written object holds was there or was written. *)
Lemma elem_of_oset {A} k (v : A) (o : props A) x :
  x ∈ oset k v o -> x = (k, v) \/ x ∈ o.
Proof.
  unfold oset. destruct (ohas k o).
  - apply elem_of_oreplace.
  - destruct (array_index k).
    + apply elem_of_oinsert_index.
    + intros [H|H]%elem_of_app; [by right|]. apply list_elem_of_singleton in H as ->. by left.
Qed.

Lemma elem_of_mset {A} k (v : A) (o : props A) x :
  x ∈ mset k v o -> x = (k, v) \/ x ∈ o.
Proof.
  unfold mset. destruct (ohas k o).
  - apply elem_of_oreplace.
  - intros [H|H]%elem_of_app; [by right|]. apply list_elem_of_singleton in H as ->. by left.
Qed.

Lemma elem_of_oassign {A} (d s : props A) x :
  x ∈ oassign d s -> x ∈ d \/ x ∈ s.
Proof.
  revert d. induction s as [|[k v] s IH]; intros d; [by left|].
  rewrite oassign_cons. intros [H|H]%IH.
  - apply elem_of_oset in H as [->|H]; [right; by left | by left].
  - right. by right.
Qed.

Section keys.
Context (idx : string).

(** The key of what a keyed row is spread into is the key of the row. *)
Lemma merged_key_spread (e : obj) (row : value) :
  keyed_row idx row ->
  merged_key idx (spread2 e (own_props row)) = row_key idx row.
Proof.
  destruct row as [| | | | |f]; try done. intros [Hnd Hid].
  unfold merged_key, row_key. simpl get_prop. simpl own_props.
  assert (oget idx (spread2 e f) = oget idx f) as E.
  { unfold spread2. rewrite oget_oassign.
    change (oget idx (rev f)) with (olast idx f).
    rewrite (olast_NoDup _ _ Hnd).
    by destruct (oget idx f). }
  rewrite E. by destruct (oget idx f) as [[]|].
Qed.

Lemma well_keyed_ocopy (p : props obj) : well_keyed idx p -> well_keyed idx (ocopy p).
Proof.
  unfold well_keyed. rewrite !Forall_forall. intros H x Hx.
  apply elem_of_oassign in Hx as [Hx|Hx]; [by apply elem_of_nil in Hx | by apply H].
Qed.

Lemma well_keyed_stream_rows rows (m : props obj) :
  well_keyed idx m -> Forall (keyed_row idx) rows ->
  well_keyed idx (fold_left (stream_step idx) rows m).
Proof.
  intros Hm Hrows. revert m Hm.
  induction Hrows as [|row rows Hrow Hrows IH]; intros m Hm; [done|].
  simpl. apply IH. unfold well_keyed in *. rewrite Forall_forall in *.
  intros x [->|Hx]%elem_of_oset; [|by apply Hm].
  simpl. by apply merged_key_spread.
Qed.

Lemma well_keyed_http_rows rows (m : props obj) :
  well_keyed idx m -> Forall (keyed_row idx) rows ->
  well_keyed idx (fold_left (http_step idx) rows m).
Proof.
  intros Hm Hrows. revert m Hm.
  induction Hrows as [|row rows Hrow Hrows IH]; intros m Hm; [done|].
  simpl. apply IH. unfold well_keyed in *. rewrite Forall_forall in *.
  intros x [->|Hx]%elem_of_mset; [|by apply Hm].
  simpl. by apply merged_key_spread.
Qed.

Lemma well_keyed_stream_merged stored records :
  well_keyed idx (persisted stored) -> Forall (keyed_row idx) (all_rows records) ->
  well_keyed idx (stream_merged idx stored records).
Proof.
  intros Hp Hrows. rewrite stream_merged_rows.
  by apply well_keyed_stream_rows; [apply well_keyed_ocopy|].
Qed.

Lemma well_keyed_http_map records :
  Forall (keyed_row idx) (all_rows records) -> well_keyed idx (http_map idx records).
Proof.
  intros Hrows. rewrite http_map_rows.
  apply well_keyed_http_rows; [constructor | done].
Qed.

(** The keys of the rows of a well-keyed collection are its keys. *)
Lemma keys_of_well_keyed (m : props obj) :
  well_keyed idx m -> map (merged_key idx) (map snd m) = okeys m.
Proof.
  unfold well_keyed, okeys. induction 1 as [|[k r] m Hk Hm IH]; [done|].
  simpl in *. by rewrite Hk, IH.
Qed.

Lemma js_ordered_stream_merged stored records :
  js_ordered (stream_merged idx stored records).
Proof. rewrite stream_merged_rows. apply js_ordered_stream_rows, js_ordered_ocopy. Qed.

Lemma NoDup_okeys_http_map records : NoDup (okeys (http_map idx records)).
Proof. rewrite http_map_rows. apply NoDup_okeys_http_rows, NoDup_nil_2. Qed.

(** The persistence map is a spread of the rows under their keys. *)
Lemma persist_map_oassign rows :
  persist_map idx rows = oassign [] (map (fun r => (merged_key idx r, r)) rows).
Proof.
  unfold persist_map, oassign. generalize (@nil (string * obj)).
  induction rows as [|r rows IH]; intros acc; [done|]. simpl. apply IH.
Qed.


(** The final pass keeps a list without two rows of one key as it is. *)
Lemma dedupe_fold_NoDup rows : forall seen out,
  NoDup (map (merged_key idx) rows) ->
  (forall r, r ∈ rows -> merged_key idx r ∉ seen) ->
  snd (fold_left (dedupe_step idx) rows (seen, out)) = out ++ rows.
Proof.
  induction rows as [|x rows IH]; intros seen out Hnd Hseen.
  - simpl. by rewrite app_nil_r.
  - simpl in Hnd. apply NoDup_cons in Hnd as [Hx Hnd].
    simpl. unfold dedupe_step at 2. simpl.
    destruct (decide (merged_key idx x ∈ seen)) as [Hin|_].
    { destruct (Hseen x); [by left | done]. }
    rewrite IH; [by rewrite <- app_assoc | done |].
    intros r Hr. rewrite not_elem_of_union, not_elem_of_singleton. split.
    + intros E. apply Hx. rewrite <- E. apply list_elem_of_fmap. by exists r.
    + apply Hseen. by right.
Qed.

Lemma dedupedVisibleRows_NoDup rows :
  NoDup (map (merged_key idx) rows) -> dedupedVisibleRows idx rows = rows.
Proof.
  intros Hnd. unfold dedupedVisibleRows.
  rewrite dedupe_fold_NoDup; [done | done |].
  intros r _. apply not_elem_of_empty.
Qed.

End keys.

Lemma slice_sublist {A} (l : list A) start stop : sublist (slice l start stop) l.
Proof.
  unfold slice. etrans; [apply sublist_take | apply sublist_drop].
Qed.

Lemma visibleRows_sublist s rows p ps : sublist (visibleRows s rows p ps) rows.
Proof.
  unfold visibleRows. destruct (s_enablePagination s) as [[]|];
    try apply slice_sublist. done.
Qed.

(** A page of positive size, when pagination is on. *)
Lemma visibleRows_take_drop s (rows : list obj) (k : nat) ps :
  0 < ps -> s_enablePagination s <> Some false ->
  visibleRows s rows (Z.of_nat (S k)) ps
  = take (Z.to_nat ps) (drop (k * Z.to_nat ps) rows).
Proof.
  intros Hps Hon. unfold visibleRows.
  assert (slice rows ((Z.of_nat (S k) - 1) * ps) ((Z.of_nat (S k) - 1) * ps + ps)
          = take (Z.to_nat ps) (drop (k * Z.to_nat ps) rows)) as ->.
  { rewrite slice_take_drop by nia. f_equal; [nia | f_equal; nia]. }
  by destruct (s_enablePagination s) as [[]|].
Qed.

Lemma concat_chunks {A} (l : list A) (c n : nat) :
  concat (map (fun i => take c (drop (i * c) l)) (seq 0 n)) = take (n * c) l.
Proof.
  induction n as [|n IH]; [done|].
  rewrite seq_S, map_app, concat_app, IH. simpl. rewrite app_nil_r.
  replace (c + n * c)%nat with (n * c + c)%nat by lia.
  symmetry. rewrite <- (take_drop (n * c) (take (n * c + c) l)).
  rewrite take_take, Nat.min_l by lia. f_equal.
  by rewrite skipn_firstn_comm, Nat.add_sub'.
Qed.

Lemma show_Z_inj n n' : show_Z n = show_Z n' -> n = n'.
Proof.
  intros E.
  assert (show_Z n +:+ "" = show_Z n' +:+ "") as E' by by rewrite E.
  by apply show_Z_inj_app in E' as [? _].
Qed.




(** *** The fields of an entry *)

Lemma oget_app {A} k (a b : props A) :
  oget k (a ++ b) = match oget k a with Some v => Some v | None => oget k b end.
Proof.
  induction a as [|[k1 v1] a IH]; simpl; [done|]. by destruct (String.eqb k k1).
Qed.

Lemma olast_app {A} k (a b : props A) :
  olast k (a ++ b) = match olast k b with Some v => Some v | None => olast k a end.
Proof. unfold olast. rewrite rev_app_distr. apply oget_app. Qed.

(** No row of key [k] brings field [f]. *)
Lemma olast_fields_for_None idx k f rows :
  olast f (fields_for idx k rows) = None
  <-> Forall (fun r => row_key idx r = k -> olast f (own_props r) = None) rows.
Proof.
  induction rows as [|r rows IH]; [done|].
  change (fields_for idx k (r :: rows))
    with ((if String.eqb k (row_key idx r) then own_props r else [])
          ++ fields_for idx k rows).
  rewrite olast_app, Forall_cons, <- IH.
  destruct (olast f (fields_for idx k rows)) as [v|].
  - split; [done | by intros [_ ?]].
  - destruct (String.eqb_spec k (row_key idx r)) as [->|Hne].
    + split; [intros H; split; [done | done] | intros [H _]; by apply H].
    + split; [intros _; split; [congruence | done] | done].
Qed.

(** Field [f] of what the rows of key [k] bring is the field of the last
    of them that has it. *)
Lemma olast_fields_for idx k f v rows :
  olast f (fields_for idx k rows) = Some v
  <-> exists pre row post, rows = pre ++ row :: post
        /\ row_key idx row = k
        /\ olast f (own_props row) = Some v
        /\ Forall (fun r => row_key idx r = k -> olast f (own_props r) = None) post.
Proof.
  induction rows as [|r rows IH].
  - split; [done | intros (pre & ? & ? & E & _); by destruct pre].
  - change (fields_for idx k (r :: rows))
      with ((if String.eqb k (row_key idx r) then own_props r else [])
            ++ fields_for idx k rows).
    rewrite olast_app.
    destruct (olast f (fields_for idx k rows)) as [v'|] eqn:Erest.
    + rewrite IH. split.
      * intros (pre & row & post & -> & H). by exists (r :: pre), row, post.
      * intros (pre & row & post & E & Hk & Hv & Hpost).
        destruct pre as [|p pre]; simpl in E; injection E as <- ->.
        -- apply olast_fields_for_None in Hpost. congruence.
        -- by exists pre, row, post.
    + split.
      * intros H. exists [], r, rows.
        destruct (String.eqb_spec k (row_key idx r)) as [->|Hne]; [|done].
        split_and!; [done | done | done |]. by apply olast_fields_for_None.
      * intros (pre & row & post & E & Hk & Hv & Hpost).
        destruct pre as [|p pre]; simpl in E; injection E as <- ->.
        -- rewrite <- Hk, String.eqb_refl. done.
        -- assert (@None value = Some v) as H; [|done].
           apply IH. by exists pre, row, post.
Qed.

End TableFacts.

(** ** More on the area chart: the series kept by the effect *)

Module ChartFacts.
Import JS AreaChart ChartMore PropsFacts SeriesFacts.

Lemma mget_mdelete {A} k k' (m : props A) :
  mget k (mdelete k' m) = if String.eqb k k' then None else mget k m.
Proof.
  unfold mget, mdelete. induction m as [|[k1 v1] m IH]; simpl.
  - by destruct (String.eqb k k').
  - destruct (String.eqb_spec k' k1) as [->|Hne]; simpl.
    + rewrite IH. by destruct (String.eqb k k1).
    + rewrite IH. destruct (String.eqb_spec k k1) as [->|Hne'].
      * destruct (String.eqb_spec k1 k'); [congruence | done].
      * done.
Qed.

Lemma olast_cons {A} k k0 (v : A) (l : props A) :
  olast k ((k0, v) :: l)
  = match olast k l with
    | Some x => Some x
    | None => if String.eqb k k0 then Some v else None
    end.
Proof. unfold olast. simpl. apply oget_app_fresh. Qed.

Lemma last_descriptor_cons id d series :
  last_descriptor id (d :: series)
  = match last_descriptor id series with
    | Some x => Some x
    | None => if String.eqb id (d_id d) then Some d else None
    end.
Proof. unfold last_descriptor. simpl. apply olast_cons. Qed.

Lemma last_descriptor_id id d series :
  last_descriptor id series = Some d -> d_id d = id /\ d ∈ series.
Proof.
  induction series as [|d0 series IH]; [done|].
  rewrite last_descriptor_cons. destruct (last_descriptor id series) as [x|].
  - intros [= ->]. destruct IH as [? ?]; [done|]. split; [done | by right].
  - destruct (String.eqb_spec id (d_id d0)) as [->|]; [|done].
    intros [= ->]. split; [done | by left].
Qed.

Lemma last_descriptor_None id series :
  last_descriptor id series = None <-> id ∉ map d_id series.
Proof.
  induction series as [|d0 series IH]; [split; [intros _; apply not_elem_of_nil | done]|].
  rewrite last_descriptor_cons. simpl. rewrite not_elem_of_cons.
  destruct (last_descriptor id series) as [x|].
  - split; [done|]. intros [_ H]. by apply IH in H.
  - destruct (String.eqb_spec id (d_id d0)) as [->|Hne].
    + split; [done | by intros [? _]].
    + split; [intros _; split; [done | by apply IH] | done].
Qed.

(** With no id twice, the last descriptor of an id is the one descriptor
    of that id. *)
Lemma last_descriptor_NoDup d series :
  NoDup (map d_id series) -> d ∈ series -> last_descriptor (d_id d) series = Some d.
Proof.
  induction series as [|d0 series IH]; intros Hnd Hin; [by apply elem_of_nil in Hin|].
  simpl in Hnd. apply NoDup_cons in Hnd as [Hd0 Hnd].
  rewrite last_descriptor_cons. apply elem_of_cons in Hin as [->|Hin].
  - apply last_descriptor_None in Hd0. rewrite Hd0. by rewrite String.eqb_refl.
  - by rewrite IH.
Qed.

(** The lookup map gives the last descriptor of an id. *)
Lemma seriesById_last id series : mget id (seriesById series) = last_descriptor id series.
Proof.
  unfold mget, seriesById, last_descriptor.
  rewrite (oget_fold_mset d_id series [] id). by destruct (olast id _).
Qed.

Lemma remove_stale_step byId (acc : props series_ref) k id :
  mget id match mget k byId with
          | Some incoming => if hidden incoming then mdelete k acc else acc
          | None => mdelete k acc
          end
  = if stale byId id && String.eqb id k then None else mget id acc.
Proof.
  destruct (String.eqb_spec id k) as [->|Hne].
  - rewrite andb_true_r. unfold stale.
    destruct (mget k byId) as [d|]; [destruct (hidden d)|];
      rewrite ?mget_mdelete, ?String.eqb_refl; done.
  - rewrite andb_false_r.
    destruct (mget k byId) as [d|]; [destruct (hidden d)|];
      rewrite ?mget_mdelete; by destruct (String.eqb_spec id k).
Qed.

Lemma remove_stale_fold byId (l acc : props series_ref) id :
  mget id (fold_left (fun acc entry =>
             match mget (fst entry) byId with
             | Some incoming => if hidden incoming then mdelete (fst entry) acc else acc
             | None => mdelete (fst entry) acc
             end) l acc)
  = if stale byId id && existsb (String.eqb id) (map fst l) then None else mget id acc.
Proof.
  revert acc. induction l as [|[k v] l IH]; intros acc; simpl.
  - by rewrite andb_false_r.
  - rewrite IH, remove_stale_step.
    destruct (stale byId id), (String.eqb id k),
      (existsb (String.eqb id) (map fst l)); done.
Qed.

(** The first loop of the effect removes exactly the stale series. *)
Lemma mget_remove_stale byId (m : props series_ref) id :
  mget id (remove_stale byId m) = if stale byId id then None else mget id m.
Proof.
  unfold remove_stale. rewrite remove_stale_fold.
  destruct (stale byId id); [|done]. simpl.
  destruct (existsb (String.eqb id) (map fst m)) eqn:E; [done|].
  unfold mget. apply oget_None_iff. intros Hin.
  assert (existsb (String.eqb id) (map fst m) = true); [|congruence].
  apply existsb_exists. exists id. split; [by apply list_elem_of_In|].
  apply String.eqb_refl.
Qed.

Lemma remove_stale_none byId (l acc : props series_ref) :
  (forall entry, entry ∈ l -> stale byId (fst entry) = false) ->
  fold_left (fun acc entry =>
     match mget (fst entry) byId with
     | Some incoming => if hidden incoming then mdelete (fst entry) acc else acc
     | None => mdelete (fst entry) acc
     end) l acc = acc.
Proof.
  revert acc. induction l as [|e l IH]; intros acc Hl; [done|].
  simpl. pose proof (Hl e ltac:(by left)) as He. unfold stale in He.
  destruct (mget (fst e) byId) as [d|]; [|done]. rewrite He.
  apply IH. intros e' He'. apply Hl. by right.
Qed.

(** One descriptor: what the map holds afterwards. *)
Lemma descriptor_step_spec records st d st1 :
  descriptor_step records st d = Some st1 ->
  (created st <= created st1)%nat
  /\ (hidden d = false -> is_Some (effect_data (gather (d_id d) records)))
  /\ forall id,
       mget id (existingMap st1)
       = if String.eqb id (d_id d) then
           if hidden d then None
           else option_map
                  (fun data =>
                     {| s_uid := match mget (d_id d) (existingMap st) with
                                 | Some s => s_uid s
                                 | None => created st
                                 end;
                        s_title := title d; s_data := data |})
                  (effect_data (gather (d_id d) records))
         else mget id (existingMap st).
Proof.
  unfold descriptor_step. destruct (hidden d).
  - destruct (mget (d_id d) (existingMap st)) as [s|] eqn:Es; intros [= <-]; simpl.
    + split; [done|]. split; [done|]. intros id. by rewrite mget_mdelete.
    + split; [done|]. split; [done|]. intros id.
      destruct (String.eqb_spec id (d_id d)) as [->|]; done.
  - destruct (effect_data (gather (d_id d) records)) as [data|]; [|done].
    destruct (mget (d_id d) (existingMap st)) as [s|] eqn:Es; intros [= <-]; simpl.
    + split; [done|]. split; [done|]. intros id. unfold mget. by rewrite oget_mset.
    + split; [lia|]. split; [done|]. intros id. unfold mget. by rewrite oget_mset.
Qed.

(** The second loop: what the map holds under an id afterwards. *)
Lemma descriptors_loop_spec records series : forall st st',
  descriptors_loop records st series = Some st' ->
  forall id,
    match last_descriptor id series with
    | Some d =>
        if hidden d then mget id (existingMap st') = None
        else exists s, mget id (existingMap st') = Some s
               /\ s_title s = title d
               /\ effect_data (gather id records) = Some (s_data s)
    | None => mget id (existingMap st') = mget id (existingMap st)
    end.
Proof.
  induction series as [|d series IH]; intros st st' Hloop id.
  - injection Hloop as <-. done.
  - simpl in Hloop. destruct (descriptor_step records st d) as [st1|] eqn:Hstep; [|done].
    apply descriptor_step_spec in Hstep as (_ & Hdata & Hstep).
    specialize (IH st1 st' Hloop id). rewrite last_descriptor_cons.
    destruct (last_descriptor id series) as [x|]; [done|].
    rewrite IH, Hstep.
    destruct (String.eqb_spec id (d_id d)) as [->|]; [|done].
    destruct (hidden d); [done|].
    destruct (Hdata eq_refl) as [data ->]. simpl.
    eexists. split; [done|]. by split.
Qed.

Lemma descriptors_loop_created records series : forall st st',
  descriptors_loop records st series = Some st' -> (created st <= created st')%nat.
Proof.
  induction series as [|d series IH]; intros st st' Hloop.
  - by injection Hloop as <-.
  - simpl in Hloop. destruct (descriptor_step records st d) as [st1|] eqn:Hstep; [|done].
    apply descriptor_step_spec in Hstep as [Hc _].
    specialize (IH st1 st' Hloop). lia.
Qed.

(** A series that is there and whose descriptors are all shown keeps its
    handle through the second loop. *)
Lemma descriptors_loop_kept records id series : forall st st' s0,
  descriptors_loop records st series = Some st' ->
  mget id (existingMap st) = Some s0 ->
  (forall d, d ∈ series -> d_id d = id -> hidden d = false) ->
  exists s, mget id (existingMap st') = Some s /\ s_uid s = s_uid s0.
Proof.
  induction series as [|d series IH]; intros st st' s0 Hloop Hs0 Hvis.
  - injection Hloop as <-. by exists s0.
  - simpl in Hloop. destruct (descriptor_step records st d) as [st1|] eqn:Hstep; [|done].
    apply descriptor_step_spec in Hstep as (_ & Hdata & Hstep).
    assert (exists s1, mget id (existingMap st1) = Some s1 /\ s_uid s1 = s_uid s0)
      as (s1 & Hs1 & Hu).
    { rewrite Hstep. destruct (String.eqb_spec id (d_id d)) as [E|]; [|by exists s0].
      rewrite (Hvis d) by (by left || done).
      destruct (Hdata (Hvis d ltac:(by left) ltac:(done))) as [data ->]. simpl.
      eexists. split; [done|]. simpl. by rewrite <- E, Hs0. }
    destruct (IH st1 st' s1 Hloop Hs1) as (s & Hs & Hu').
    { intros d' Hd'. apply Hvis. by right. }
    exists s. split; [done | congruence].
Qed.

(** Handles from a given count on: what is added later is fresh. *)
Lemma descriptors_loop_fresh records id c0 series : forall st st',
  descriptors_loop records st series = Some st' ->
  (c0 <= created st)%nat ->
  match mget id (existingMap st) with Some s => (c0 <= s_uid s)%nat | None => True end ->
  match mget id (existingMap st') with Some s => (c0 <= s_uid s)%nat | None => True end.
Proof.
  induction series as [|d series IH]; intros st st' Hloop Hc Hs.
  - by injection Hloop as <-.
  - simpl in Hloop. destruct (descriptor_step records st d) as [st1|] eqn:Hstep; [|done].
    apply descriptor_step_spec in Hstep as (Hc1 & Hdata & Hstep).
    apply (IH st1 st' Hloop); [lia|].
    rewrite Hstep. destruct (String.eqb_spec id (d_id d)) as [->|]; [|done].
    destruct (hidden d); [done|].
    destruct (Hdata eq_refl) as [data ->]. simpl.
    by destruct (mget (d_id d) (existingMap st)).
Qed.

(** A series with a hidden descriptor is gone after that descriptor, so
    what the second loop leaves under its id was added afterwards. *)
Lemma descriptors_loop_recreated records id series : forall st st' d s,
  descriptors_loop records st series = Some st' ->
  d ∈ series -> d_id d = id -> hidden d = true ->
  mget id (existingMap st') = Some s ->
  (created st <= s_uid s)%nat.
Proof.
  induction series as [|d0 series IH]; intros st st' d s Hloop Hin Hid Hhid Hs.
  - by apply elem_of_nil in Hin.
  - simpl in Hloop. destruct (descriptor_step records st d0) as [st1|] eqn:Hstep; [|done].
    apply descriptor_step_spec in Hstep as (Hc1 & Hdata & Hstep).
    apply elem_of_cons in Hin as [<-|Hin].
    + pose proof (descriptors_loop_fresh records id (created st) series st1 st' Hloop Hc1)
        as Hfresh.
      rewrite Hs, Hstep, <- Hid, String.eqb_refl, Hhid in Hfresh. by apply Hfresh.
    + pose proof (IH st1 st' d s Hloop Hin Hid Hhid Hs). lia.
Qed.

(** The data of a series cannot be built exactly when a [null] is among
    its points. *)
Lemma effect_data_None merged : effect_data merged = None <-> VNull ∈ merged.
Proof.
  unfold effect_data. destruct (existsb is_null merged) eqn:E.
  - apply existsb_exists in E as (v & Hv & Hnull). destruct v; try done.
    apply list_elem_of_In in Hv.
    destruct merged; [by apply elem_of_nil in Hv | done].
  - split; [by destruct (0 <? length merged)%nat|]. intros Hin.
    assert (existsb is_null merged = true); [|congruence].
    apply existsb_exists. exists VNull. by split; [apply list_elem_of_In|].
Qed.

Lemma descriptor_step_None records st d :
  descriptor_step records st d = None
  <-> hidden d = false /\ VNull ∈ gather (d_id d) records.
Proof.
  rewrite <- effect_data_None. unfold descriptor_step. destruct (hidden d).
  - destruct (mget (d_id d) (existingMap st)); split; by intros [? ?] || done.
  - destruct (effect_data (gather (d_id d) records));
      destruct (mget (d_id d) (existingMap st)); split; by intros [? ?] || done.
Qed.

Lemma descriptors_loop_None records series : forall st,
  descriptors_loop records st series = None
  <-> exists d, d ∈ series /\ hidden d = false /\ VNull ∈ gather (d_id d) records.
Proof.
  induction series as [|d series IH]; intros st; simpl.
  - split; [done | intros (d & Hd & _); by apply elem_of_nil in Hd].
  - destruct (descriptor_step records st d) as [st1|] eqn:Hstep.
    + rewrite IH. split.
      * intros (d' & Hd' & H). exists d'. split; [by right | done].
      * intros (d' & [->|Hd']%elem_of_cons & H); [|by exists d'].
        apply (descriptor_step_None records st) in H. congruence.
    + split; [|done]. intros _. exists d. split; [by left|].
      by apply (descriptor_step_None records st).
Qed.

(** A run of the second loop that changes nothing at any descriptor. *)
Lemma descriptors_loop_fixed records st series :
  (forall d, d ∈ series -> descriptor_step records st d = Some st) ->
  descriptors_loop records st series = Some st.
Proof.
  induction series as [|d series IH]; intros Hall; [done|].
  simpl. rewrite (Hall d) by by left. apply IH. intros d' Hd'. apply Hall. by right.
Qed.

Lemma mset_same {A} k (v : A) (m : props A) : mget k m = Some v -> mset k v m = m.
Proof.
  intros H. unfold mset, ohas. unfold mget in H. rewrite H. by apply oreplace_same.
Qed.

(** Sorting commutes with a map that respects the comparator. *)
Lemma sort_map {A B} (f : A -> B) (cmp : A -> A -> Z) (cmp' : B -> B -> Z) l :
  (forall a b, cmp' (f a) (f b) = cmp a b) ->
  sort cmp' (map f l) = map f (sort cmp l).
Proof.
  intros Hcmp. unfold sort. induction l as [|x l IH]; [done|].
  simpl. rewrite IH. generalize (fold_right (sort_insert cmp) [] l).
  intros l'. induction l' as [|y l' IH']; [done|].
  simpl. rewrite Hcmp. destruct (cmp x y <=? 0); [done|]. simpl. by rewrite IH'.
Qed.

Lemma mset_map {A B} (g : A -> B) k v (m : props A) :
  mset k (g v) (map (fun kv => (fst kv, g (snd kv))) m)
  = map (fun kv => (fst kv, g (snd kv))) (mset k v m).
Proof.
  assert (forall k', oget k' (map (fun kv => (fst kv, g (snd kv))) m)
                     = option_map g (oget k' m)) as Hget.
  { intros k'. induction m as [|[k1 v1] m IH]; [done|].
    simpl. by destruct (String.eqb k' k1). }
  unfold mset, ohas. rewrite Hget. destruct (oget k m) as [x|]; simpl.
  - clear. induction m as [|[k1 v1] m IH]; [done|].
    simpl. destruct (String.eqb k k1); simpl; [done | by rewrite IH].
  - by rewrite map_app.
Qed.

(** On points that are objects, the keyed map and the sorted data are
    those of [keyed] and [series_data]. *)
Lemma value_keyed_objects (pts : list obj) :
  value_keyed (map VObj pts) = map (fun kv => (fst kv, VObj (snd kv))) (keyed pts).
Proof.
  unfold value_keyed, keyed.
  change (@nil (string * value)) with (map (fun kv : string * obj => (fst kv, VObj (snd kv))) []).
  generalize (@nil (string * obj)).
  induction pts as [|pt pts IH]; intros m; [done|].
  simpl. rewrite <- IH. f_equal. apply (mset_map VObj).
Qed.

(** Both loops: what the map holds under an id after the effect. *)
Lemma series_effect_spec records series st st' :
  series_effect records series st = Some st' ->
  forall id,
    match last_descriptor id series with
    | Some d =>
        if hidden d then mget id (existingMap st') = None
        else exists s, mget id (existingMap st') = Some s
               /\ s_title s = title d
               /\ effect_data (gather id records) = Some (s_data s)
    | None => mget id (existingMap st') = None
    end.
Proof.
  unfold series_effect. intros Hloop id.
  pose proof (descriptors_loop_spec _ _ _ _ Hloop id) as H.
  destruct (last_descriptor id series) as [d|] eqn:Ed; [done|].
  rewrite H. simpl. rewrite mget_remove_stale. unfold stale.
  by rewrite seriesById_last, Ed.
Qed.

(** On points that are objects the effect builds the list [series_data]
    of them. *)
Lemma effect_data_objects pts :
  effect_data (map VObj pts) = Some (map VObj (series_data pts)).
Proof.
  unfold effect_data, series_data, deduped. rewrite length_map.
  assert (existsb is_null (map VObj pts) = false) as ->.
  { induction pts as [|pt pts IH]; [done | done]. }
  destruct pts as [|pt pts]; [done|].
  change (0 <? length (pt :: pts))%nat with true. cbv iota.
  f_equal. rewrite value_keyed_objects. unfold mvalues.
  rewrite map_map. simpl. rewrite <- (map_map snd VObj).
  by apply sort_map.
Qed.

End ChartFacts.

(** ** The engine's side: where it agrees with the plain model *)

Module ExactFacts.
Import JS TableCard PropsFacts MergeFacts JsonFacts TableFacts.
Import Exact.

Lemma safe_field k v (f : obj) :
  safe (VObj f) = true -> oget k f = Some v -> safe v = true.
Proof.
  simpl. rewrite forallb_forall. intros Hall Hget.
  apply oget_Some_elem, list_elem_of_In in Hget. exact (Hall _ Hget).
Qed.

(** [String] on data in range: it throws on the unprintable values and
    returns the string of the plain model on the others. *)
Lemma ToString_spec v :
  safe v = true ->
  ToString v = if unprintable v then Throws else Returns (to_String v).
Proof.
  induction v as [| [] | n | s | l IH | f IH] using value_ind_nested; simpl;
    try done.
  - by intros ->.
  - intros Hsafe.
    assert ((fix join (l : list value) : outcome (list string) :=
               match l with
               | [] => Returns []
               | e :: rest =>
                   bind (match e with VNull => Returns "" | _ => ToString e end)
                     (fun s => bind (join rest) (fun ss => Returns (s :: ss)))
               end) l
            = if existsb unprintable l then Throws
              else Returns (map (fun e => match e with
                                          | VNull => ""
                                          | _ => to_String e
                                          end) l)) as ->.
    { induction l as [|e l IHl]; [done|].
      apply Forall_cons in IH as [He IH]. simpl in Hsafe.
      apply andb_true_iff in Hsafe as [Hse Hsl].
      specialize (He Hse). simpl. rewrite (IHl IH Hsl).
      assert (match e with VNull => Returns "" | _ => ToString e end
              = if unprintable e then Throws
                else Returns (match e with VNull => "" | _ => to_String e end)) as ->
        by (destruct e; first [done | exact He]).
      by destruct (unprintable e), (existsb unprintable l). }
    by destruct (existsb unprintable l).
Qed.

Lemma Stringify_safe v : safe v = true -> Stringify v = Returns (stringify v).
Proof. unfold Stringify. by intros ->. Qed.

(** The key of an ordinary row is the key of the plain model. *)
Lemma row_key_ordinary idx row :
  ordinary idx row -> Exact.row_key idx row = Returns (TableCard.row_key idx row).
Proof.
  unfold ordinary, Exact.row_key, TableCard.row_key.
  destruct row as [| | | | |f]; try (by intros [_ []]).
  intros [Hs H]. unfold Get in *. simpl get_prop.
  destruct (oget idx f) as [v|] eqn:Ev.
  - pose proof (safe_field _ _ _ Hs Ev) as Hv.
    destruct v; try (rewrite (ToString_spec _ Hv), H; done).
    by apply Stringify_safe.
  - destruct (String.eqb idx "__proto__"); [done|].
    destruct (oget idx prototype_functions); [done|].
    by apply Stringify_safe.
Qed.

(** *** Assignment to an object used as a map *)


Lemma assign_ordinary m key v :
  key <> "__proto__" ->
  assign m key v = {| own := oset key v (own m); proto := proto m |}.
Proof.
  intros Hne. unfold assign.
  by destruct (String.eqb_spec key "__proto__").
Qed.



(** *** A loop that stops at the first throw *)




(** *** Ordinary rows: the engine does what the plain model does *)

Lemma stream_step_ordinary idx o row :
  ordinary idx row -> TableCard.row_key idx row <> "__proto__" ->
  Exact.stream_step idx {| own := o; proto := None |} row
  = Returns {| own := TableCard.stream_step idx o row; proto := None |}.
Proof.
  intros Hrow Hkey. unfold Exact.stream_step. rewrite row_key_ordinary by done.
  simpl bind. rewrite assign_ordinary by done. unfold existing. simpl.
  unfold TableCard.stream_step. by destruct (oget _ o).
Qed.

Lemma stream_rows_ordinary idx rows : forall o,
  Forall (fun row => ordinary idx row /\ TableCard.row_key idx row <> "__proto__") rows ->
  fold_left (fun merged row => bind merged (fun m => Exact.stream_step idx m row))
    rows (Returns {| own := o; proto := None |})
  = Returns {| own := fold_left (TableCard.stream_step idx) rows o; proto := None |}.
Proof.
  induction rows as [|row rows IH]; intros o Hrows; [done|].
  apply Forall_cons in Hrows as [[Hrow Hkey] Hrows].
  simpl. rewrite stream_step_ordinary by done. by apply IH.
Qed.

Lemma stream_merged_ordinary idx stored records :
  Forall (fun row => ordinary idx row /\ TableCard.row_key idx row <> "__proto__")
    (all_rows records) ->
  Exact.stream_merged idx stored records
  = Returns {| own := TableCard.stream_merged idx stored records; proto := None |}.
Proof.
  intros Hrows. unfold Exact.stream_merged.
  rewrite (fold_rows (fun merged row => bind merged (fun m => Exact.stream_step idx m row))).
  rewrite stream_rows_ordinary by done. by rewrite stream_merged_rows.
Qed.

Lemma http_rows_ordinary idx rows : forall m,
  Forall (ordinary idx) rows ->
  fold_left (fun m row => bind m (fun m => Exact.http_step idx m row)) rows (Returns m)
  = Returns (fold_left (TableCard.http_step idx) rows m).
Proof.
  induction rows as [|row rows IH]; intros m Hrows; [done|].
  apply Forall_cons in Hrows as [Hrow Hrows].
  simpl. unfold Exact.http_step at 2. rewrite row_key_ordinary by done.
  simpl bind. by apply IH.
Qed.

Lemma http_map_ordinary idx records :
  Forall (ordinary idx) (all_rows records) ->
  Exact.http_map idx records = Returns (TableCard.http_map idx records).
Proof.
  intros Hrows. unfold Exact.http_map.
  rewrite (fold_rows (fun m row => bind m (fun m => Exact.http_step idx m row))).
  rewrite http_rows_ordinary by done. by rewrite http_map_rows.
Qed.

(** On ordinary rows, none under the key [__proto__], the merged rows of
    the engine are those of the plain model, in either mode. *)
Lemma mergedRows_ordinary isHttp idx stored records :
  Forall (fun row => ordinary idx row
                     /\ (isHttp = false -> TableCard.row_key idx row <> "__proto__"))
    (all_rows records) ->
  Exact.mergedRows isHttp idx stored records
  = Returns (TableCard.mergedRows isHttp idx stored records).
Proof.
  intros Hrows. unfold Exact.mergedRows, TableCard.mergedRows. destruct isHttp.
  - rewrite http_map_ordinary; [done|].
    eapply Forall_impl; [exact Hrows|]. by intros row [? _].
  - rewrite stream_merged_ordinary; [done|].
    eapply Forall_impl; [exact Hrows|]. intros row [? H]. split; [done | by apply H].
Qed.



(** *** The object map of the persistence effect, key by key *)


(** *** A row under the key [__proto__] *)

(** Merged into a map that has no entry of that name and whose prototype
    is still [Object.prototype], the row becomes the prototype: the map
    gets no entry. *)
Lemma stream_step_proto idx o row :
  Exact.row_key idx row = Returns "__proto__" ->
  oget "__proto__" o = None ->
  Exact.stream_step idx {| own := o; proto := None |} row
  = Returns {| own := o; proto := Some (spread2 [] (own_props row)) |}.
Proof.
  intros Hkey Ho. unfold Exact.stream_step. rewrite Hkey. simpl bind.
  unfold assign, existing, ohas. simpl. by rewrite Ho.
Qed.

Lemma oget_ocopy_None {A} k (o : props A) : oget k o = None -> oget k (ocopy o) = None.
Proof.
  rewrite !oget_None_iff. unfold ocopy. rewrite elem_of_okeys_oassign.
  intros Hk [H|H]; [by apply elem_of_nil in H | done].
Qed.

Lemma row_key_own_string idx f s :
  oget idx f = Some (VStr s) -> Exact.row_key idx (VObj f) = Returns s.
Proof. intros H. unfold Exact.row_key, Get. by rewrite H. Qed.



(** *** The request/response branch, field by field *)

Lemma app_snoc_split {A} (rows pre post : list A) row r :
  rows ++ [row] = pre ++ r :: post ->
  (post = [] /\ pre = rows /\ r = row)
  \/ (exists post', post = post' ++ [row] /\ rows = pre ++ r :: post').
Proof.
  destruct post as [|a post _] using rev_ind; intros E.
  - left. apply app_inj_tail in E as [-> ->]. done.
  - right. exists post.
    change (pre ++ r :: post ++ [a]) with (pre ++ (r :: post) ++ [a]) in E.
    rewrite app_assoc in E. apply app_inj_tail in E as [-> ->]. done.
Qed.

Lemma oget_spread2 (entry fields : obj) f :
  oget f (spread2 entry fields)
  = match olast f fields with Some v => Some v | None => olast f entry end.
Proof.
  unfold spread2, ocopy, olast. rewrite !oget_oassign. simpl.
  destruct (oget f (rev fields)); [done|]. by destruct (oget f (rev entry)).
Qed.

Lemma http_fold_spec idx rows : forall m,
  fold_left (fun m row => bind m (fun m => Exact.http_step idx m row)) rows
    (Returns []) = Returns m ->
  NoDup (okeys m)
  /\ Forall (fun kv => js_ordered (snd kv)) m
  /\ (forall k, k ∈ okeys m
        <-> exists row, row ∈ rows /\ Exact.row_key idx row = Returns k)
  /\ (forall k e f v, mget k m = Some e ->
        (oget f e = Some v <->
           exists pre row post, rows = pre ++ row :: post
             /\ Exact.row_key idx row = Returns k
             /\ olast f (own_props row) = Some v
             /\ Forall (fun r => Exact.row_key idx r = Returns k ->
                                 olast f (own_props r) = None) post)).
Proof.
  induction rows as [|row rows IH] using rev_ind; intros m' Hfold.
  - injection Hfold as <-. split_and!; [apply NoDup_nil_2 | constructor | |].
    + intros k. split; [by intros ?%elem_of_nil|].
      intros (row & Hrow & _). by apply elem_of_nil in Hrow.
    + done.
  - rewrite fold_left_app in Hfold. cbn [fold_left] in Hfold.
    destruct (fold_left (fun m row => bind m (fun m => Exact.http_step idx m row))
                rows (Returns [])) as [m| |] eqn:Em; try done.
    cbn [bind] in Hfold. unfold Exact.http_step in Hfold.
    destruct (Exact.row_key idx row) as [key| |] eqn:Ekey; try done.
    cbn [bind] in Hfold. injection Hfold as <-.
    destruct (IH m eq_refl) as (Hnd & Hord & Hkeys & Hfields).
    assert (forall k, k ∈ okeys (mset key (spread2 (or_empty (mget key m)) (own_props row)) m)
              <-> exists row', row' ∈ rows ++ [row]
                    /\ Exact.row_key idx row' = Returns k) as Hkeys'.
    { intros k. rewrite elem_of_okeys_mset, Hkeys. split.
      - intros [->|(row' & Hin & Hk)].
        + exists row. split; [|done]. apply elem_of_app. right. by left.
        + exists row'. split; [|done]. apply elem_of_app. by left.
      - intros (row' & [Hin|Hin%list_elem_of_singleton]%elem_of_app & Hk).
        + right. by exists row'.
        + left. subst row'. congruence. }
    split_and!; [by apply NoDup_okeys_mset | | done |].
    + rewrite Forall_forall in *. intros x [->|Hx]%elem_of_mset; [|by apply Hord].
      simpl. apply js_ordered_spread2.
    + intros k e f v He. unfold mget in He. rewrite oget_mset in He.
      destruct (String.eqb_spec k key) as [->|Hne].
      * injection He as <-. rewrite oget_spread2.
        destruct (olast f (own_props row)) as [v0|] eqn:Erow.
        -- split.
           ++ intros [= <-]. exists rows, row, []. by split_and!.
           ++ intros (pre & r & post & E & Hk & Hv & Hpost).
              apply app_snoc_split in E as [(-> & -> & ->)|(post' & -> & ->)].
              ** congruence.
              ** apply Forall_app in Hpost as [_ Hrow].
                 apply Forall_cons in Hrow as [Hrow _].
                 specialize (Hrow Ekey). congruence.
        -- unfold mget in *. destruct (oget key m) as [e0|] eqn:E0; unfold or_empty.
           ++ assert (js_ordered e0) as [Hnd0 _].
              { rewrite Forall_forall in Hord.
                exact (Hord _ (oget_Some_elem _ _ _ E0)). }
              rewrite (olast_NoDup _ _ Hnd0), (Hfields key e0 f v E0). split.
              ** intros (pre & r & post & -> & Hk & Hv & Hpost).
                 exists pre, r, (post ++ [row]). rewrite <- app_assoc.
                 split_and!; [done | done | done |].
                 apply Forall_app. split; [done|]. by apply Forall_singleton.
              ** intros (pre & r & post & E & Hk & Hv & Hpost).
                 apply app_snoc_split in E as [(-> & -> & ->)|(post' & -> & ->)];
                   [congruence|].
                 apply Forall_app in Hpost as [Hpost _]. by exists pre, r, post'.
           ++ split; [done|].
              intros (pre & r & post & E & Hk & Hv & Hpost).
              apply app_snoc_split in E as [(-> & -> & ->)|(post' & -> & ->)];
                [congruence|].
              assert (key ∈ okeys m) as Hin.
              { apply Hkeys. exists r. split; [|done].
                apply elem_of_app. right. by left. }
              apply oget_None_iff in E0. done.
      * rewrite (Hfields k e f v He). split.
        -- intros (pre & r & post & -> & Hk & Hv & Hpost).
           exists pre, r, (post ++ [row]). rewrite <- app_assoc.
           split_and!; [done | done | done |].
           apply Forall_app. split; [done|]. apply Forall_singleton.
           intros Hk'. congruence.
        -- intros (pre & r & post & E & Hk & Hv & Hpost).
           apply app_snoc_split in E as [(-> & -> & ->)|(post' & -> & ->)];
             [congruence|].
           apply Forall_app in Hpost as [Hpost _]. by exists pre, r, post'.
Qed.

End ExactFacts.

(** ** Every result a sort may give *)

Module SortFacts.
Import JS AreaChart Sorting Scenario Cases PropsFacts SeriesFacts.

Lemma compare_points_ge a b :
  0 <= compare_points b a -> point_key a <> point_key b -> point_before a b.
Proof.
  intros Hge Hne.
  destruct (Z.eq_dec (compare_points b a) 0) as [H0|H0].
  - assert (point_before b a) as Hba
      by (apply compare_points_le; [lia | done]).
    exfalso. revert H0 Hba. unfold compare_points, point_before, point_key.
    destruct (time a) as [[| | ta | | |]|] eqn:Ea;
      destruct (time b) as [[| | tb | | |]|] eqn:Eb;
      try (case_ltb; intros H0 Hba; first [done | lia | congruence]).
    lia.
  - apply compare_points_le; [|done]. apply compare_points_gt. lia.
Qed.

Lemma StronglySorted_strict {A K} (R R' : relation A) (key : A -> K) l :
  (forall a b, R a b -> key a <> key b -> R' a b) ->
  NoDup (map key l) -> StronglySorted R l -> StronglySorted R' l.
Proof.
  intros Hstrict Hnd Hs. induction Hs as [|x l Hs IH Hall]; [constructor|].
  simpl in Hnd. apply NoDup_cons in Hnd as [Hni Hnd].
  constructor; [by apply IH|].
  rewrite Forall_forall in *. intros y Hy. apply Hstrict; [by apply Hall|].
  intros E. apply Hni. rewrite E. apply list_elem_of_fmap. by exists y.
Qed.

Lemma StronglySorted_mono {A} (R R' : relation A) l :
  (forall a b, R a b -> R' a b) -> StronglySorted R l -> StronglySorted R' l.
Proof.
  intros Hsub Hs. induction Hs as [|x l Hs IH Hall]; constructor; [done|].
  eapply Forall_impl; [exact Hall|]. intros y. apply Hsub.
Qed.

(** The comparator is consistent on times that are all numbers, and on
    times none of which is a number. *)
Lemma consistent_numeric l :
  Forall (fun pt => numeric pt = true) l -> consistent compare_points l.
Proof.
  rewrite Forall_forall. intros Hall a b c Ha Hb Hc.
  pose proof (Hall a Ha) as Na. pose proof (Hall b Hb) as Nb.
  pose proof (Hall c Hc) as Nc. revert Na Nb Nc.
  unfold numeric, typeof_number, compare_points.
  destruct (time a) as [[]|]; try done.
  destruct (time b) as [[]|]; try done.
  destruct (time c) as [[]|]; try done. intros _ _ _. lia.
Qed.

Lemma string_order_consistent (sa sb sc : string) :
  let cmp (x y : string) : Z :=
    if String.ltb x y then -1 else if String.ltb y x then 1 else 0 in
  cmp sa sa = 0
  /\ (cmp sa sb = 0 -> cmp sb sa = 0)
  /\ (cmp sa sb = 0 -> cmp sb sc = 0 -> cmp sa sc = 0)
  /\ (cmp sa sb < 0 -> cmp sb sc < 0 -> cmp sa sc < 0)
  /\ (0 < cmp sa sb -> 0 < cmp sb sc -> 0 < cmp sa sc).
Proof.
  intros cmp. unfold cmp.
  assert (String.ltb sa sa = false) as Hrefl.
  { destruct (String.ltb sa sa) eqn:E; [|done]. apply ltb_antisym in E as E'. congruence. }
  rewrite Hrefl. split; [done|]. split; [|split; [|split]].
  - destruct (String.ltb sa sb) eqn:Eab, (String.ltb sb sa) eqn:Eba; done.
  - destruct (String.ltb sa sb) eqn:Eab, (String.ltb sb sa) eqn:Eba; try done.
    destruct (String.ltb sb sc) eqn:Ebc, (String.ltb sc sb) eqn:Ecb; try done.
    intros _ _. rewrite (ltb_total _ _ Eab Eba), (ltb_total _ _ Ebc Ecb).
    destruct (String.ltb sc sc) eqn:E; [|done]. apply ltb_antisym in E as E'. congruence.
  - destruct (String.ltb sa sb) eqn:Eab;
      [|destruct (String.ltb sb sa); intros; lia].
    destruct (String.ltb sb sc) eqn:Ebc;
      [|destruct (String.ltb sc sb); intros; lia].
    intros _ _. by rewrite (ltb_trans _ _ _ Eab Ebc).
  - destruct (String.ltb sa sb) eqn:Eab; [intros; lia|].
    destruct (String.ltb sb sa) eqn:Eba; [|intros; lia].
    destruct (String.ltb sb sc) eqn:Ebc; [intros; lia|].
    destruct (String.ltb sc sb) eqn:Ecb; [|intros; lia].
    intros _ _. pose proof (ltb_trans _ _ _ Ecb Eba) as Hca.
    by rewrite (ltb_antisym _ _ Hca), Hca.
Qed.

Lemma consistent_other l :
  Forall (fun pt => numeric pt = false) l -> consistent compare_points l.
Proof.
  rewrite Forall_forall. intros Hall a b c Ha Hb Hc.
  pose proof (Hall a Ha) as Na. pose proof (Hall b Hb) as Nb.
  pose proof (Hall c Hc) as Nc.
  pose proof (string_order_consistent (time_string (time a))
                (time_string (time b)) (time_string (time c))) as H.
  revert Na Nb Nc H. unfold numeric, typeof_number, compare_points.
  destruct (time a) as [[]|]; try done;
    destruct (time b) as [[]|]; try done;
    destruct (time c) as [[]|]; try done; intros _ _ _ H; exact H.
Qed.

(** *** The data of a series *)

Lemma series_data_deduped merged : series_data merged = deduped merged.
Proof. unfold series_data. by destruct merged. Qed.

Lemma series_data_perm merged : series_data merged ≡ₚ mvalues (keyed merged).
Proof. rewrite series_data_deduped. apply sort_perm. Qed.

(** What a rearrangement of the deduplicated points holds. *)
Lemma deduplicated merged out :
  out ≡ₚ mvalues (keyed merged) ->
  NoDup (map point_key out)
  /\ (forall pt, pt ∈ out <->
        exists pre post, merged = pre ++ pt :: post
          /\ (point_key pt ∉ map point_key post))
  /\ (forall pt, pt ∈ merged -> point_key pt ∈ map point_key out)
  /\ (forall P : obj -> Prop, Forall P merged -> Forall P out).
Proof.
  intros Hperm.
  assert (forall pt, pt ∈ out <->
            exists pre post, merged = pre ++ pt :: post
              /\ (point_key pt ∉ map point_key post)) as Hin.
  { intros pt. rewrite Hperm. apply elem_of_keyed. }
  split_and!; [| done | |].
  - rewrite Hperm. apply NoDup_keys_keyed.
  - intros pt Hpt. rewrite Hperm, keys_of_keyed. unfold keyed.
    apply elem_of_okeys_fold_mset. right.
    apply list_elem_of_fmap. by exists pt.
  - intros P HP. rewrite Forall_forall in HP. apply Forall_forall.
    intros pt (pre & post & -> & _)%Hin. apply HP.
    apply elem_of_app. right. by left.
Qed.

(** The model's sort on times of one kind: the list is ascending. *)
Lemma series_data_ascending merged :
  forallb numeric merged = true
  \/ forallb (fun pt => negb (numeric pt)) merged = true ->
  StronglySorted point_before (series_data merged).
Proof.
  intros Hkind.
  destruct (deduplicated merged (series_data merged) (series_data_perm merged))
    as (Hnd & _ & _ & Hall).
  assert (Sorted point_before (series_data merged)) as Hs.
  { rewrite series_data_deduped in *.
    apply (Sorted_strict (fun a b => compare_points a b <= 0) _ point_key);
      [apply compare_points_le | done |].
    apply sort_sorted; [done|]. apply compare_points_gt. }
  destruct Hkind as [Hnum|Hnum].
  - apply (Sorted_StronglySorted_on _ (fun pt => numeric pt = true));
      [apply point_before_trans_numeric | | done].
    apply Hall. apply Forall_forall. intros pt Hpt.
    rewrite forallb_forall in Hnum. by apply Hnum, list_elem_of_In.
  - apply (Sorted_StronglySorted_on _ (fun pt => numeric pt = false));
      [apply point_before_trans_other | | done].
    apply Hall. apply Forall_forall. intros pt Hpt.
    rewrite forallb_forall in Hnum. apply negb_true_iff.
    by apply Hnum, list_elem_of_In.
Qed.

Lemma series_view_perm merged out :
  series_view merged out -> out ≡ₚ mvalues (keyed merged).
Proof.
  unfold series_view. destruct merged as [|pt merged]; simpl.
  - by intros ->.
  - by intros [H _].
Qed.

(** On times of one kind every result the language allows is the
    ascending list, the one the model's sort gives. *)
Lemma series_view_ascending merged out :
  forallb numeric merged = true
  \/ forallb (fun pt => negb (numeric pt)) merged = true ->
  series_view merged out ->
  StronglySorted point_before out /\ out = series_data merged.
Proof.
  intros Hkind Hview.
  pose proof (series_view_perm _ _ Hview) as Hperm.
  destruct (deduplicated merged out Hperm) as (Hnd & _ & _ & _).
  assert (StronglySorted point_before out) as Hs.
  { destruct merged as [|pt0 merged];
      [unfold series_view in Hview; simpl in Hview; subst out; constructor|].
    unfold series_view in Hview. simpl (0 <? _)%nat in Hview.
    destruct Hview as [_ Hsorted].
    apply (StronglySorted_strict (fun a b => 0 <= compare_points b a) _ point_key);
      [apply compare_points_ge | done |].
    apply Hsorted.
    destruct (deduplicated (pt0 :: merged) _ (reflexivity _)) as (_ & _ & _ & Hall).
    destruct Hkind as [Hnum|Hnum].
    - apply consistent_numeric, Hall, Forall_forall. intros pt Hpt.
      rewrite forallb_forall in Hnum. by apply Hnum, list_elem_of_In.
    - apply consistent_other, Hall, Forall_forall. intros pt Hpt.
      rewrite forallb_forall in Hnum. apply negb_true_iff.
      by apply Hnum, list_elem_of_In. }
  split; [done|].
  apply (StronglySorted_unique_strong point_before); [|done| |].
  - intros x1 x2 _ _ H1 H2. destruct (point_before_asym _ _ H1 H2).
  - by apply series_data_ascending.
  - by rewrite Hperm, series_data_perm.
Qed.

(** The model's sort gives a result the language allows, on times of one
    kind. *)
Lemma series_view_model merged :
  forallb numeric merged = true
  \/ forallb (fun pt => negb (numeric pt)) merged = true ->
  series_view merged (series_data merged).
Proof.
  intros Hkind. unfold series_view.
  destruct merged as [|pt0 merged]; [done|]. simpl (0 <? _)%nat. cbv iota.
  split; [apply series_data_perm|]. intros _.
  pose proof (series_data_ascending _ Hkind) as Hs.
  eapply StronglySorted_mono; [|exact Hs]. clear.
  intros a b Hab. revert Hab. unfold point_before, compare_points, point_key.
  destruct (time a) as [[| | ta | | |]|] eqn:Ea;
    destruct (time b) as [[| | tb | | |]|] eqn:Eb;
    try (intros Hab; pose proof (ltb_antisym _ _ Hab) as Hba;
         first [congruence | rewrite Hba, Hab; lia]).
  lia.
Qed.

(** *** Times the comparator orders in a circle *)

Lemma cyclic_no_order :
  ~ exists out, out ≡ₚ cyclic_points /\ StronglySorted point_before out.
Proof.
  intros (out & Hperm & Hs).
  destruct out as [|x rest]; [by apply Permutation_nil_l in Hperm|].
  apply StronglySorted_inv in Hs as [_ Hx]. rewrite Forall_forall in Hx.
  assert (forall pt, pt ∈ cyclic_points -> pt = x \/ point_before x pt) as Hfirst.
  { intros pt Hpt. rewrite <- Hperm in Hpt.
    apply elem_of_cons in Hpt as [->|Hpt]; [by left | right; by apply Hx]. }
  assert (x ∈ cyclic_points) as Hxin by (rewrite <- Hperm; by left).
  pose proof (Hfirst (at_time (VNum 10)) ltac:(by left)) as H10.
  pose proof (Hfirst (at_time (VStr "5")) ltac:(right; by left)) as H5.
  pose proof (Hfirst (at_time (VNum 9)) ltac:(do 2 right; by left)) as H9.
  unfold cyclic_points in Hxin.
  repeat (apply elem_of_cons in Hxin as [->|Hxin]);
    [| | | by apply elem_of_nil in Hxin].
  - destruct H9 as [H|H]; [done | by vm_compute in H].
  - destruct H10 as [H|H]; [done | by vm_compute in H].
  - destruct H5 as [H|H]; [done | by vm_compute in H].
Qed.

Lemma cyclic_inconsistent : ~ consistent compare_points cyclic_points.
Proof.
  intros H.
  destruct (H (at_time (VNum 10)) (at_time (VStr "5")) (at_time (VNum 9)))
    as (_ & _ & _ & Hlt & _);
    [by left | right; by left | do 2 right; by left |].
  by specialize (Hlt ltac:(by vm_compute) ltac:(by vm_compute)).
Qed.

End SortFacts.

(** ** The statements of the specification: merge *)

Module MergeSpec.
Import JS TableCard Scenario Cases PropsFacts MergeFacts TableFacts.

(** The streaming merge in the plain model, where every key is an
    ordinary property name.  The merge starts from a copy of the
    persisted collection and takes the rows of all records in arrival
    order; a row is spread over the entry of its key, which is created when
    absent, and the entries of other keys are left alone; a field of the
    entry that the row does not mention keeps its value; no key of the
    persisted collection or of an earlier batch is lost.  It is what the
    engine does on ordinary rows none of which has the key [__proto__]
    ([ExactFacts.mergedRows_ordinary]). *)
Lemma stream_merge_entries :
  (forall idx stored records,
      stream_merged idx stored records
      = fold_left (stream_step idx) (all_rows records) (ocopy (persisted stored)))
  /\ (forall idx m row k,
      oget k (stream_step idx m row)
      = if String.eqb k (row_key idx row)
        then Some (spread2 (or_empty (oget k m)) (own_props row))
        else oget k m)
  /\ (forall idx stored records k,
      oget k (stream_merged idx stored records)
      = fold_left (entry_step idx k) (all_rows records)
          (oget k (ocopy (persisted stored))))
  /\ (forall (entry fields : obj) f,
      oget f (spread2 entry fields)
      = match olast f fields with Some v => Some v | None => olast f entry end)
  /\ (forall idx stored records,
      okeys (persisted stored) ⊆ okeys (stream_merged idx stored records))
  /\ (forall idx stored records more,
      okeys (stream_merged idx stored records)
      ⊆ okeys (stream_merged idx stored (records ++ more)))
  /\ (forall idx stored records k,
      touched idx k (all_rows records) = false ->
      oget k (stream_merged idx stored records) = oget k (ocopy (persisted stored)))
  /\ stream_merged "id" (Some []) [batch1; batch2] = collection
  /\ stream_merged "id" (Some (stream_merged "id" (Some []) [batch1])) [batch2]
     = collection
  /\ mergedRows false "id" (Some []) [batch1; batch2] = [row_1xy; row_2z].
Proof.
  split_and!.
  - apply stream_merged_rows.
  - intros idx m row k. rewrite oget_stream_step. unfold entry_step.
    by destruct (String.eqb k (row_key idx row)).
  - intros idx stored records k. rewrite stream_merged_rows.
    apply oget_stream_rows.
  - intros entry fields f. unfold spread2, ocopy, olast.
    rewrite !oget_oassign. simpl.
    destruct (oget f (rev fields)); [done|]. by destruct (oget f (rev entry)).
  - intros idx stored records k Hk. rewrite stream_merged_rows.
    apply elem_of_okeys_stream_rows. left.
    apply elem_of_okeys_oassign. by right.
  - intros idx stored records more k Hk. rewrite stream_merged_rows in *.
    rewrite all_rows_app, fold_left_app.
    apply elem_of_okeys_stream_rows. by left.
  - intros idx stored records k H. rewrite stream_merged_rows.
    by apply untouched_entry.
  - by vm_compute.
  - by vm_compute.
  - by vm_compute.
Qed.

(** C1. Accumulate (streaming) mode, a row whose key is [__proto__].
    The merged object is a plain object used as a map, and the
    assignment [merged[key] = ...] under the key [__proto__] sets its
    prototype: the row gets no entry and is not among the merged rows,
    while the request/response branch, which keeps a [Map], has it; a
    later row whose key names a field of the lost row is spread over that
    field's value.  On the scenario batches the merge gives the two rows
    of the specification. *)
Theorem accumulate_merge_proto_key :
  (forall stored f,
      oget "id" f = Some (VStr "__proto__") ->
      oget "__proto__" (persisted stored) = None ->
      Exact.mergedRows false "id" stored [[("rows", VArr [VObj f])]]
      = Exact.Returns (ovalues (ocopy (persisted stored))))
  /\ (forall stored f,
      oget "id" f = Some (VStr "__proto__") ->
      Exact.mergedRows true "id" stored [[("rows", VArr [VObj f])]]
      = Exact.Returns [spread2 [] f])
  /\ Exact.mergedRows false "id" None [proto_batch] = Exact.Returns []
  /\ Exact.mergedRows true "id" None [proto_batch] = Exact.Returns [proto_row]
  /\ Exact.mergedRows false "id" None [leak_batch]
     = Exact.Returns [[("0", VStr "x"); ("1", VStr "y"); ("id", VStr "a")]]
  /\ Exact.mergedRows false "id" None [batch1; batch2]
     = Exact.Returns [row_1xy; row_2z].
Proof.
  split_and!; [| | by vm_compute..].
  - intros stored f Hid Hstored.
    unfold Exact.mergedRows, Exact.stream_merged. cbn [fold_left].
    change (rows_of [("rows", VArr [VObj f])]) with [VObj f].
    cbn [fold_left Exact.bind].
    rewrite ExactFacts.stream_step_proto;
      [done | by apply ExactFacts.row_key_own_string
            | by apply ExactFacts.oget_ocopy_None].
  - intros stored f Hid.
    unfold Exact.mergedRows, Exact.http_map. cbn [fold_left].
    change (rows_of [("rows", VArr [VObj f])]) with [VObj f].
    cbn [fold_left Exact.bind]. unfold Exact.http_step.
    by rewrite (ExactFacts.row_key_own_string _ _ _ Hid).
Qed.

(** C2. Snapshot (HTTP) mode.  The merged rows do not depend on the
    persisted collection; the map is built from nothing out of the rows of
    the current records in arrival order, so its keys are exactly the keys
    of the current rows and every merged row sits under the key of a
    current row, and a row of an earlier batch whose key no row of the
    current batch has is not in it; the entry of a key is what the current
    rows of that key make of nothing, one after the other, a row being
    spread over the entry its key already has in this call.  Field by
    field: the entry of a key has a field exactly when a current row of
    that key has it, with the value of the last such row ([olast f
    (own_props row)] is [row[f]] on an object), so a later row overwrites
    the fields it has and keeps the others.  After the scenario's first
    batch, the second batch alone gives [{id:1,b:"y"}] and [{id:2,a:"z"}]:
    field [a] of item 1 is gone; both batches in one call give item 1
    with [a] and [b]; of two rows of id 1 with field [a], the value of the
    second stays.  On ordinary rows this is what the engine does, and
    with the engine's own keys the same holds of every merge that does
    not throw: it does not look at the persisted collection, its keys are
    the keys of the current rows, and its entries have their fields from
    the last row that has them. *)
Theorem snapshot_merge :
  (forall idx stored stored' records,
      mergedRows true idx stored records = mergedRows true idx stored' records)
  /\ (forall idx records,
      http_map idx records = fold_left (http_step idx) (all_rows records) [])
  /\ (forall idx records k,
      k ∈ okeys (http_map idx records)
      <-> exists row, row ∈ all_rows records /\ row_key idx row = k)
  /\ (forall idx stored records r,
      r ∈ mergedRows true idx stored records
      <-> exists row, row ∈ all_rows records
            /\ mget (row_key idx row) (http_map idx records) = Some r)
  /\ (forall idx records k,
      mget k (http_map idx records)
      = fold_left (entry_step idx k) (all_rows records) None)
  /\ (forall idx B1 B2 row,
      row ∈ rows_of B1 ->
      row_key idx row ∉ map (row_key idx) (rows_of B2) ->
      mget (row_key idx row) (http_map idx [B2]) = None)
  /\ (forall idx m row k,
      mget k (http_step idx m row)
      = if String.eqb k (row_key idx row)
        then Some (spread2 (or_empty (mget k m)) (own_props row))
        else mget k m)
  /\ mergedRows true "id" (Some (stream_merged "id" (Some []) [batch1])) [batch2]
     = [row_1y; row_2z]
  /\ (forall idx records k e f v,
      mget k (http_map idx records) = Some e ->
      (oget f e = Some v <->
         exists pre row post, all_rows records = pre ++ row :: post
           /\ row_key idx row = k
           /\ olast f (own_props row) = Some v
           /\ Forall (fun r => row_key idx r = k -> olast f (own_props r) = None)
                post))
  /\ mergedRows true "id" None [batch1; batch2] = [row_1xy; row_2z]
  /\ mergedRows true "id" (Some collection)
       [[("rows", VArr [VObj [("id", VNum 1); ("a", VStr "x")];
                        VObj [("id", VNum 1); ("a", VStr "w")]])]]
     = [[("id", VNum 1); ("a", VStr "w")]]
  /\ (forall idx stored records,
      Forall (Exact.ordinary idx) (all_rows records) ->
      Exact.mergedRows true idx stored records
      = Exact.Returns (mergedRows true idx stored records))
  /\ (forall idx stored stored' records,
      Exact.mergedRows true idx stored records
      = Exact.mergedRows true idx stored' records)
  /\ (forall idx stored records m,
      Exact.http_map idx records = Exact.Returns m ->
      Exact.mergedRows true idx stored records = Exact.Returns (mvalues m)
      /\ NoDup (okeys m)
      /\ (forall k, k ∈ okeys m
            <-> exists row, row ∈ all_rows records
                  /\ Exact.row_key idx row = Exact.Returns k)
      /\ (forall k e f v, mget k m = Some e ->
            (oget f e = Some v <->
               exists pre row post, all_rows records = pre ++ row :: post
                 /\ Exact.row_key idx row = Exact.Returns k
                 /\ olast f (own_props row) = Some v
                 /\ Forall (fun r => Exact.row_key idx r = Exact.Returns k ->
                                     olast f (own_props r) = None) post))).
Proof.
  split_and!.
  - done.
  - apply http_map_rows.
  - intros idx records k. rewrite http_map_rows, elem_of_okeys_http_rows.
    split; [intros [H|H]; [by apply elem_of_nil in H | done] | by right].
  - intros idx stored records r. unfold mergedRows, mvalues, mget.
    assert (NoDup (okeys (http_map idx records))) as Hnd.
    { rewrite http_map_rows. apply NoDup_okeys_http_rows, NoDup_nil_2. }
    assert (forall k, k ∈ okeys (http_map idx records)
              <-> exists row, row ∈ all_rows records /\ row_key idx row = k) as Hk.
    { intros k. rewrite http_map_rows, elem_of_okeys_http_rows.
      split; [intros [H|H]; [by apply elem_of_nil in H | done] | by right]. }
    split.
    + intros ((k & r') & -> & Hin)%list_elem_of_fmap.
      destruct (proj1 (Hk k)) as (row & Hrow & <-).
      { apply list_elem_of_fmap. by exists (k, r'). }
      exists row. split; [done|]. simpl.
      by apply oget_elem_NoDup.
    + intros (row & Hrow & Hget). apply oget_Some_elem in Hget.
      apply list_elem_of_fmap. by exists (row_key idx row, r).
  - intros idx records k. unfold mget. rewrite http_map_rows.
    apply oget_http_rows.
  - intros idx B1 B2 row _ Hni. unfold mget. apply oget_None_iff.
    rewrite http_map_rows, elem_of_okeys_http_rows.
    intros [H|(row' & Hin & E)]; [by apply elem_of_nil in H|].
    apply Hni. rewrite <- E. apply list_elem_of_fmap. exists row'.
    split; [done|]. unfold all_rows in Hin. simpl in Hin.
    by rewrite app_nil_r in Hin.
  - intros idx m row k. unfold mget. rewrite oget_http_step. unfold entry_step.
    by destruct (String.eqb k (row_key idx row)).
  - by vm_compute.
  - intros idx records k e f v He. unfold mget in He.
    rewrite http_map_rows, oget_http_rows, entry_rows in He.
    destruct (touched idx k (all_rows records)); [|done].
    injection He as <-. rewrite oget_oassign.
    change (oget f (rev ?l)) with (olast f l).
    rewrite <- olast_fields_for.
    by destruct (olast f (fields_for idx k (all_rows records))).
  - by vm_compute.
  - by vm_compute.
  - intros idx stored records Hrows.
    apply ExactFacts.mergedRows_ordinary.
    eapply Forall_impl; [exact Hrows|]. by intros row H.
  - done.
  - intros idx stored records m Hm.
    split; [unfold Exact.mergedRows; by rewrite Hm|].
    unfold Exact.http_map in Hm.
    rewrite (fold_rows (fun m row => Exact.bind m (fun m => Exact.http_step idx m row)))
      in Hm.
    destruct (ExactFacts.http_fold_spec idx _ m Hm) as (Hnd & _ & Hkeys & Hfields).
    done.
Qed.

(** A batch that comes twice in a row in the records of one call gives
    the same collection, and the same merged rows, as the batch once (in
    the plain model). *)
Lemma stream_merge_repeated_batch :
  (forall idx stored pre B post,
      stream_merged idx stored (pre ++ B :: B :: post)
      = stream_merged idx stored (pre ++ B :: post))
  /\ (forall idx stored pre B post,
      mergedRows false idx stored (pre ++ B :: B :: post)
      = mergedRows false idx stored (pre ++ B :: post)).
Proof.
  assert (forall idx stored pre B post,
      stream_merged idx stored (pre ++ B :: B :: post)
      = stream_merged idx stored (pre ++ B :: post)) as Hin.
  { intros idx stored pre B post. rewrite !stream_merged_rows.
    rewrite !all_rows_app, !fold_left_app.
    change (all_rows (B :: B :: post)) with (rows_of B ++ all_rows (B :: post)).
    change (all_rows (B :: post)) with (rows_of B ++ all_rows post).
    rewrite !fold_left_app. f_equal. apply stream_rows_idem.
    apply NoDup_okeys_stream_rows, js_ordered_ocopy. }
  split; [done|]. intros. unfold mergedRows. by rewrite Hin.
Qed.

(** C3. The same batch in two successive calls.  Between two calls the
    collection goes through the persistence effect, which stores each
    merged row under the key of the merged row, not under the key it was
    merged under.  For a batch of two rows of one key, the id of the first
    being the serialization of the second, which has no id: the first
    call gives one row; the effect stores it under another key; the
    second call, from that store and with the same batch, gives two rows.
    Within one call the batch twice gives the one row. *)
Theorem accumulate_merge_rekeyed :
  Exact.mergedRows false "id" None [rekey_batch] = Exact.Returns [rekeyed_row]
  /\ Exact.persist_effect "id" [rekeyed_row] None
     = Exact.Returns (Some rekeyed_store)
  /\ Exact.mergedRows false "id" (Some rekeyed_store) [rekey_batch]
     = Exact.Returns [rekeyed_row; rekeyed_row]
  /\ Exact.mergedRows false "id" None [rekey_batch; rekey_batch]
     = Exact.Returns [rekeyed_row]
  /\ Exact.row_key "id" (VObj named_row) = Exact.row_key "id" (VObj anonymous_row)
  /\ Exact.row_key "id" (VObj rekeyed_row) <> Exact.row_key "id" (VObj named_row).
Proof. split_and!; by vm_compute. Qed.

(** Dropping every record whose [rows] is not an array changes nothing. *)
Lemma mergedRows_filter_has_rows isHttp idx stored records :
  mergedRows isHttp idx stored (filter has_rows records)
  = mergedRows isHttp idx stored records.
Proof.
  unfold mergedRows.
  by rewrite !stream_merged_rows, !http_map_rows, all_rows_filter.
Qed.

(** C10. A record whose [rows] is missing, [null] or anything but an
    array contributes no row, in either mode: the merged rows are those of
    the records around it. *)
Theorem merge_skips_malformed_record isHttp idx stored pre rec post :
  isArray (oget "rows" rec) = false ->
  rows_of rec = []
  /\ mergedRows isHttp idx stored (pre ++ rec :: post)
     = mergedRows isHttp idx stored (pre ++ post).
Proof.
  intros H.
  assert (rows_of rec = []) as Hrows.
  { unfold rows_of, isArray in *. by destruct (oget "rows" rec) as [[]|]. }
  split; [done|].
  assert (all_rows (pre ++ rec :: post) = all_rows (pre ++ post)) as Hall.
  { rewrite !all_rows_app.
    change (all_rows (rec :: post)) with (rows_of rec ++ all_rows post).
    by rewrite Hrows. }
  unfold mergedRows. by rewrite !stream_merged_rows, !http_map_rows, Hall.
Qed.

(** An instance: a record with [rows: null] between the two scenario
    batches. *)
Lemma merge_skips_malformed_record_witness :
  isArray (oget "rows" [("kind", VStr "table"); ("rows", VNull)]) = false
  /\ rows_of [("kind", VStr "table"); ("rows", VNull)] = []
  /\ mergedRows false "id" (Some [])
       ([batch1] ++ [("kind", VStr "table"); ("rows", VNull)] :: [batch2])
     = mergedRows false "id" (Some []) ([batch1] ++ [batch2]).
Proof.
  split; [reflexivity|].
  apply (merge_skips_malformed_record false "id" (Some []) [batch1]
           [("kind", VStr "table"); ("rows", VNull)] [batch2]).
  reflexivity.
Defined.

End MergeSpec.

(** ** The statements of the specification: persistence, page, views *)

Module ViewSpec.
Import JS TableCard Scenario PropsFacts MergeFacts ViewFacts SeriesFacts.



(** The effect, when it runs: the stored page reads back as the smaller
    of the page and [max(1, ceil(count/pageSize))], which lies between 1
    and that number of pages. *)
Lemma clamp_effect_bounds count storedPage ps :
  let p := page storedPage in
  let p' := page (match clamp_effect count p ps with
                  | Some q => Some q | None => Some p end) in
  p' = Z.min p (totalPages count ps) /\ 1 <= p' <= totalPages count ps.
Proof.
  intros p p'. pose proof (page_pos storedPage) as Hp.
  pose proof (totalPages_pos count ps) as Ht.
  assert (p' = Z.min p (totalPages count ps)) as ->
    by (by apply clamp_effect_page).
  fold p in Hp. lia.
Qed.

Lemma totalPages_ceil count ps :
  0 < ps -> 0 < count ->
  ps * (totalPages count ps - 1) < count <= ps * totalPages count ps.
Proof.
  intros Hps Hc. unfold totalPages.
  pose proof (ceil_div_spec count ps Hps) as H.
  assert (1 <= ceil_div count ps) by nia. by rewrite Z.max_r.
Qed.

(** With rows, a render runs the clamp effect on the page and page size
    it computed and on the number of merged rows. *)
Lemma page_clamp_with_rows isHttp s stored storedPage storedPageSize records :
  mergedRows isHttp (indexColumn s) stored records <> [] ->
  r_setPage (render isHttp s stored storedPage storedPageSize records)
  = clamp_effect
      (Z.of_nat (length (mergedRows isHttp (indexColumn s) stored records)))
      (page storedPage) (pageSize storedPageSize s).
Proof.
  intros H. unfold render.
  by destruct (mergedRows isHttp (indexColumn s) stored records).
Qed.

(** C6 on the component.  With no merged rows the component returns the
    placeholder before the clamp effect is reached: no page is set and the
    stored page stays what it was, a stored page of 10 stays 10, although
    the effect, had it run on a count of 0, would have set it to 1.  The
    effect on 25 rows of page size 10 sets a page of 10 to 3. *)
Theorem page_clamp_skipped_without_rows :
  (forall isHttp s stored storedPage storedPageSize records,
      mergedRows isHttp (indexColumn s) stored records = [] ->
      let r := render isHttp s stored storedPage storedPageSize records in
      r_setPage r = None /\ storedPage_after storedPage r = storedPage)
  /\ storedPage_after (Some 10)
       (render false no_settings (Some []) (Some 10) (Some 10) [])
     = Some 10
  /\ page (storedPage_after (Some 10)
             (render false no_settings (Some []) (Some 10) (Some 10) []))
     = 10
  /\ clamp_effect 0 10 10 = Some 1
  /\ clamp_effect 25 10 10 = Some 3.
Proof.
  split_and!; [|done..].
  intros isHttp s stored storedPage storedPageSize records H r.
  subst r. unfold render, storedPage_after. rewrite H. done.
Qed.

Lemma pageSize_pos storedPageSize s :
  (forall n, s_pageSize s = Some n -> 0 <= n) -> 0 < pageSize storedPageSize s.
Proof.
  intros H. assert (0 < settingsPageSize s) as Hs.
  { unfold settingsPageSize. destruct (s_pageSize s) as [n|]; [|done].
    specialize (H n eq_refl). destruct (Z.eqb_spec n 0); lia. }
  unfold pageSize. destruct storedPageSize as [n|]; [|done].
  destruct (Z.ltb_spec 0 n); done.
Qed.

(** C7. The paginated view, for a page size that is positive.  With
    pagination switched off the view is all merged rows in their order.
    Otherwise, the setting left out included, the view is the rows at the
    indices from [(page-1)*pageSize] up to, not including,
    [page*pageSize], in order. *)
Theorem paginated_view s (rows : list obj) storedPage storedPageSize :
  0 < pageSize storedPageSize s ->
  let p := page storedPage in
  let ps := pageSize storedPageSize s in
  let start := Z.to_nat ((p - 1) * ps) in
  let stop := Z.to_nat (p * ps) in
  let view := visibleRows s rows p ps in
  match s_enablePagination s with
  | Some false => view = rows
  | _ =>
      view = take (stop - start) (drop start rows)
      /\ forall i : nat,
           view !! i
           = if decide (start + i < stop)%nat then rows !! (start + i)%nat
             else None
  end.
Proof.
  intros Hps p ps start stop view. pose proof (page_pos storedPage) as Hp.
  fold p in Hp. fold ps in Hps.
  assert (view = match s_enablePagination s with
                 | Some false => rows
                 | _ => take (stop - start) (drop start rows)
                 end) as Hview.
  { subst view. unfold visibleRows.
    assert (slice rows ((p - 1) * ps) ((p - 1) * ps + ps)
            = take (stop - start) (drop start rows)) as ->.
    { rewrite slice_take_drop by nia. subst start stop. do 3 f_equal. lia. }
    done. }
  rewrite Hview. destruct (s_enablePagination s) as [[]|]; try done;
    (split; [done | intros i; apply lookup_take_drop]).
Qed.

(** An instance: the scenario's two merged rows, page size 1, page 2. *)
Lemma paginated_view_witness :
  0 < pageSize (Some 1) no_settings
  /\ visibleRows no_settings [row_1xy; row_2z] 2 1 = [row_2z].
Proof.
  split; [reflexivity|].
  pose proof (paginated_view no_settings [row_1xy; row_2z] (Some 2) (Some 1)
                ltac:(reflexivity)) as H.
  simpl in H. exact (proj1 H).
Defined.

(** C9. The final pass.  The rows the table draws are the deduplicated
    visible rows.  They keep the order of the visible rows, hold no key
    twice, and a row is among them exactly when it stands in the visible
    rows with no row of the same key before it; every key of the visible
    rows is among theirs. *)
Theorem stability_guard :
  (forall isHttp s stored storedPage storedPageSize records,
      let idx := indexColumn s in
      let rows := mergedRows isHttp idx stored records in
      match r_output (render isHttp s stored storedPage storedPageSize records) with
      | NoTableData => rows = []
      | TableView out p ps _ =>
          out = dedupedVisibleRows idx (visibleRows s rows p ps)
      end)
  /\ (forall idx rows,
      let out := dedupedVisibleRows idx rows in
      sublist out rows
      /\ NoDup (map (merged_key idx) out)
      /\ (forall r, r ∈ out <->
           exists pre post, rows = pre ++ r :: post
             /\ (merged_key idx r ∉ map (merged_key idx) pre))
      /\ (forall r, r ∈ rows -> merged_key idx r ∈ map (merged_key idx) out)).
Proof.
  split.
  - intros isHttp s stored storedPage storedPageSize records idx rows.
    unfold render. fold idx. fold rows.
    destruct rows; simpl; done.
  - intros idx rows out. subst out. unfold dedupedVisibleRows.
    destruct (dedupe_fold idx rows ∅ []) as (new & -> & Hsub & Hnd & Hchar).
    simpl.
    assert (forall r, r ∈ new <->
              exists pre post, rows = pre ++ r :: post
                /\ (merged_key idx r ∉ map (merged_key idx) pre)) as Hchar'.
    { intros r. rewrite Hchar. split.
      - intros (pre & post & ? & _ & ?). by exists pre, post.
      - intros (pre & post & ? & ?). exists pre, post.
        split_and!; [done | | done]. apply not_elem_of_empty. }
    split_and!; [done | done | done |].
    intros r Hr.
    destruct (first_of_key (merged_key idx) rows r Hr)
      as (pre & y & post & E & <- & Hni).
    apply list_elem_of_fmap. exists y. split; [done|].
    apply Hchar'. by exists pre, post.
Qed.

End ViewSpec.
(** ** The statements of the specification: the series view *)

Module SeriesSpec.
Import JS AreaChart Sorting Scenario Cases PropsFacts SeriesFacts SortFacts.

(** C8. The sorted series view, for every list the language lets the
    sort return.  The data of a series holds no key twice; a point is in
    it exactly when it stands in the gathered points with no point of the
    same key after it, so the last point of a key replaces the earlier
    ones, and every key of the gathered points is there, whatever its
    time looks like.  When all times are numbers, and when none is, the
    data is in ascending order, by number in the first case and by [<] on
    the string forms in the second, and it is the one list the model's
    sort computes.  Times 3, 1, 2 come out as 1, 2, 3;
    ["2024-01-02"], ["2024-01-01"] come out swapped; a time that is no
    date and a missing time stay in, placed by their string forms. *)
Theorem sorted_series_view :
  (forall merged out,
      series_view merged out ->
      NoDup (map point_key out)
      /\ (forall pt, pt ∈ out <->
            exists pre post, merged = pre ++ pt :: post
              /\ (point_key pt ∉ map point_key post))
      /\ (forall pt, pt ∈ merged -> point_key pt ∈ map point_key out)
      /\ (forallb numeric merged = true
          \/ forallb (fun pt => negb (numeric pt)) merged = true ->
          StronglySorted point_before out /\ out = series_data merged))
  /\ (forall merged,
      forallb numeric merged = true
      \/ forallb (fun pt => negb (numeric pt)) merged = true ->
      series_view merged (series_data merged))
  /\ (forall out, series_view numeric_points out ->
      out = [at_time (VNum 1); at_time (VNum 2); at_time (VNum 3)])
  /\ (forall out, series_view dated_points out ->
      out = [at_time (VStr "2024-01-01"); at_time (VStr "2024-01-02")])
  /\ (forall out, series_view malformed_points out ->
      out = [at_time (VStr "2024-01-01"); at_time (VStr "2024-01-02");
             at_time (VStr "soon"); [("value", VNum 7)]])
  /\ (forall out, series_view rewritten_points out ->
      out = [[("time", VNum 1); ("value", VNum 30)];
             [("time", VNum 2); ("value", VNum 20)]]).
Proof.
  split_and!.
  - intros merged out Hview.
    destruct (deduplicated merged out (series_view_perm _ _ Hview))
      as (Hnd & Hin & Hkeys & _).
    split_and!; [done | done | done |].
    intros Hkind. by apply series_view_ascending.
  - apply series_view_model.
  - intros out Hview.
    by destruct (series_view_ascending numeric_points out (or_introl eq_refl) Hview)
      as [_ ->].
  - intros out Hview.
    by destruct (series_view_ascending dated_points out (or_intror eq_refl) Hview)
      as [_ ->].
  - intros out Hview.
    by destruct (series_view_ascending malformed_points out (or_intror eq_refl) Hview)
      as [_ ->].
  - intros out Hview.
    by destruct (series_view_ascending rewritten_points out (or_introl eq_refl) Hview)
      as [_ ->].
Qed.

(** C8 as stated fails on times of both kinds: the times 10, ["5"] and 9
    have no ascending arrangement, 10 standing before ["5"] and ["5"]
    before 9 as strings and 9 before 10 as numbers; whatever the sort
    returns for them, and the model's sort returns them as they came, is
    not in ascending order. *)
Lemma mixed_times_not_ascending :
  series_view cyclic_points (series_data cyclic_points)
  /\ ~ exists out, series_view cyclic_points out
                   /\ StronglySorted point_before out.
Proof.
  split.
  - split; [by vm_compute|]. intros H. destruct cyclic_inconsistent.
    exact H.
  - intros (out & Hview & Hs). apply cyclic_no_order. exists out.
    split; [|done]. by apply series_view_perm in Hview.
Qed.

End SeriesSpec.
(** ** The statements of the specification: key extraction *)

Module KeySpec.
Import JS TableCard Scenario Cases JsonFacts.



End KeySpec.

(** ** TableCard: the stored map, the merged rows and the pages *)

Module TableExtra.
Import JS TableCard TableMore Scenario Cases.
Import PropsFacts MergeFacts ViewFacts SeriesFacts JsonFacts TableFacts.





(** X3. Merged rows have distinct keys, so the final pass keeps them all.
    When every incoming row is an object with a value in the index
    column (and, for a stream, the stored rows sit under their own keys),
    no two merged rows have the same key, in either mode; the final
    deduplication pass then returns the visible rows unchanged, whatever
    the page and the page size. *)
Theorem merged_rows_distinct_keys isHttp s stored records p ps :
  (isHttp = false -> well_keyed (indexColumn s) (persisted stored)) ->
  Forall (keyed_row (indexColumn s)) (all_rows records) ->
  let rows := mergedRows isHttp (indexColumn s) stored records in
  NoDup (map (merged_key (indexColumn s)) rows)
  /\ dedupedVisibleRows (indexColumn s) (visibleRows s rows p ps)
     = visibleRows s rows p ps.
Proof.
  intros Hp Hrows rows.
  assert (NoDup (map (merged_key (indexColumn s)) rows)) as Hnd.
  { unfold rows, mergedRows. destruct isHttp.
    - unfold mvalues. rewrite keys_of_well_keyed by by apply well_keyed_http_map.
      apply NoDup_okeys_http_map.
    - unfold ovalues.
      rewrite keys_of_well_keyed by (apply well_keyed_stream_merged; auto).
      apply js_ordered_stream_merged. }
  split; [done|].
  apply dedupedVisibleRows_NoDup.
  eapply sublist_NoDup; [exact Hnd|].
  apply (fmap_sublist (merged_key (indexColumn s))), visibleRows_sublist.
Qed.

Lemma merged_rows_distinct_keys_witness :
  dedupedVisibleRows (indexColumn no_settings)
    (visibleRows no_settings
       (mergedRows true (indexColumn no_settings) None [batch1; batch2]) 1 10)
  = [row_1xy; row_2z].
Proof.
  pose proof (merged_rows_distinct_keys true no_settings None [batch1; batch2] 1 10) as H.
  destruct H as [_ H].
  - done.
  - simpl. repeat apply Forall_cons_2; try apply Forall_nil_2.
    all: split; [compute_done | done].
  - rewrite H. reflexivity.
Defined.

(** X4. The order of streamed rows.  Under the conditions of X3 the rows
    of a stream come in the enumeration order of their keys, integer keys
    ascending before all others, whatever the order of arrival; the
    request/response branch keeps the order of first arrival instead, as
    two rows arriving with ids 2 and 1 show. *)
Theorem streaming_rows_in_key_order idx stored records :
  well_keyed idx (persisted stored) ->
  Forall (keyed_row idx) (all_rows records) ->
  StronglySorted key_before
    (map (merged_key idx) (mergedRows false idx stored records))
  /\ (let arriving := [[("rows", VArr [VObj [("id", VNum 2)]; VObj [("id", VNum 1)]])]] in
      mergedRows false "id" None arriving = [[("id", VNum 1)]; [("id", VNum 2)]]
      /\ mergedRows true "id" None arriving = [[("id", VNum 2)]; [("id", VNum 1)]]).
Proof.
  intros Hp Hrows. split; [|by split].
  unfold mergedRows, ovalues.
  rewrite keys_of_well_keyed by by apply well_keyed_stream_merged.
  apply js_ordered_stream_merged.
Qed.

Lemma streaming_rows_in_key_order_witness :
  StronglySorted key_before
    (map (merged_key "id") (mergedRows false "id" (Some collection) [batch2; batch1])).
Proof.
  apply (streaming_rows_in_key_order "id" (Some collection) [batch2; batch1]).
  - by repeat constructor.
  - simpl. repeat apply Forall_cons_2; try apply Forall_nil_2.
    all: split; [compute_done | done].
Defined.

(** X5. How many rows a merge gives.  The request/response branch gives
    at most as many rows as arrive; a stream gives at most the stored
    rows and the arriving rows together, and never fewer rows when more
    records are added to those already merged. *)
Theorem merged_rows_counts idx stored records more :
  (length (mergedRows true idx stored records) <= length (all_rows records))%nat
  /\ (length (mergedRows false idx stored records)
      <= length (persisted stored) + length (all_rows records))%nat
  /\ (length (mergedRows false idx stored records)
      <= length (mergedRows false idx stored (records ++ more)))%nat.
Proof.
  unfold mergedRows, mvalues, ovalues. rewrite !length_map.
  rewrite <- !(length_map fst). fold (@okeys obj). repeat split.
  - fold (okeys (http_map idx records)).
    rewrite <- (length_map (row_key idx) (all_rows records)).
    apply submseteq_length, NoDup_submseteq; [apply NoDup_okeys_http_map|].
    intros k. rewrite http_map_rows, elem_of_okeys_http_rows.
    intros [H|(row & Hrow & <-)]; [by apply elem_of_nil in H|].
    apply list_elem_of_fmap. by exists row.
  - fold (okeys (stream_merged idx stored records)) (okeys (persisted stored)).
    rewrite <- (length_map (row_key idx) (all_rows records)), <- length_app.
    apply submseteq_length, NoDup_submseteq; [apply js_ordered_stream_merged|].
    intros k. rewrite stream_merged_rows, elem_of_okeys_stream_rows, elem_of_app.
    intros [H|(row & Hrow & <-)].
    + left. unfold ocopy in H. apply elem_of_okeys_oassign in H as [H|H]; [|done].
      by apply elem_of_nil in H.
    + right. apply list_elem_of_fmap. by exists row.
  - fold (okeys (stream_merged idx stored records))
         (okeys (stream_merged idx stored (records ++ more))).
    apply submseteq_length, NoDup_submseteq; [apply js_ordered_stream_merged|].
    intros k. rewrite !stream_merged_rows, all_rows_app, fold_left_app.
    rewrite (elem_of_okeys_stream_rows _ _ (all_rows more)). by left.
Qed.

(** X6. The pages partition the rows.  With pagination on and a positive
    page size, the views of pages 1 to [totalPages], one after the other,
    are the merged rows: every row is on exactly one page, in order.  No
    page holds more rows than the page size, no page up to [totalPages]
    is empty when there are rows, and every page after it is empty. *)
Theorem pages_partition s rows ps :
  0 < ps -> s_enablePagination s <> Some false ->
  let total := totalPages (Z.of_nat (length rows)) ps in
  concat (pages s rows ps (Z.to_nat total)) = rows
  /\ Forall (fun pg => Z.of_nat (length pg) <= ps) (pages s rows ps (Z.to_nat total))
  /\ (rows <> [] -> Forall (fun pg => pg <> []) (pages s rows ps (Z.to_nat total)))
  /\ (forall p, total < p -> visibleRows s rows p ps = []).
Proof.
  intros Hps Hon total.
  pose proof (ceil_div_spec (Z.of_nat (length rows)) ps Hps) as Hceil.
  assert (ceil_div (Z.of_nat (length rows)) ps <= total) as Htot
    by (unfold total, totalPages; lia).
  assert (pages s rows ps (Z.to_nat total)
          = map (fun i => take (Z.to_nat ps) (drop (i * Z.to_nat ps) rows))
              (seq 0 (Z.to_nat total))) as E.
  { unfold pages. apply map_ext. intros i. by apply visibleRows_take_drop. }
  rewrite E. repeat split.
  - rewrite concat_chunks. apply take_ge. nia.
  - apply Forall_forall. intros pg (i & -> & _)%list_elem_of_fmap.
    rewrite length_take. lia.
  - intros Hrows. apply Forall_forall. intros pg (i & -> & Hi)%list_elem_of_fmap.
    apply elem_of_seq in Hi.
    assert (0 < length rows)%nat as Hlen by (destruct rows; [done | simpl; lia]).
    assert (total = ceil_div (Z.of_nat (length rows)) ps) as Et
      by (unfold total, totalPages; nia).
    assert (i * Z.to_nat ps < length rows)%nat as Hlt by nia.
    intros Hnil. apply (f_equal length) in Hnil.
    rewrite length_take, length_drop in Hnil. simpl in Hnil. lia.
  - intros p Hp. unfold visibleRows.
    assert (slice rows ((p - 1) * ps) ((p - 1) * ps + ps) = []) as ->.
    { pose proof (totalPages_pos (Z.of_nat (length rows)) ps).
      rewrite slice_take_drop by (fold total in H; nia).
      rewrite drop_ge by nia. apply take_nil. }
    by destruct (s_enablePagination s) as [[]|].
Qed.

Lemma pages_partition_witness :
  concat (pages no_settings [row_1x; row_1y; row_2z] 2 2) = [row_1x; row_1y; row_2z].
Proof.
  exact (proj1 (pages_partition no_settings [row_1x; row_1y; row_2z] 2
                  ltac:(reflexivity) ltac:(discriminate))).
Defined.

(** X7. The clamped page shows rows.  When there are rows and the page
    size is positive, the page left by the clamp effect is the smaller of
    the page and [totalPages]; its view is not empty, and the clamp effect
    of the next render has nothing to set. *)
Theorem clamped_page_shows_rows s rows storedPage ps :
  0 < ps -> rows <> [] ->
  let count := Z.of_nat (length rows) in
  let p := page storedPage in
  let p' := match clamp_effect count p ps with Some q => q | None => p end in
  p' = Z.min p (totalPages count ps)
  /\ visibleRows s rows p' ps <> []
  /\ clamp_effect count p' ps = None.
Proof.
  intros Hps Hrows count p p'.
  pose proof (page_pos storedPage) as Hp. fold p in Hp.
  pose proof (totalPages_pos count ps) as Ht.
  assert (p' = Z.min p (totalPages count ps)) as Ep.
  { unfold p', clamp_effect. destruct (Z.ltb_spec (totalPages count ps) p); lia. }
  split; [done|]. split.
  - destruct (decide (s_enablePagination s = Some false)) as [Hoff|Hon].
    { unfold visibleRows. by rewrite Hoff. }
    replace p' with (Z.of_nat (S (Z.to_nat (p' - 1)))) by lia.
    rewrite visibleRows_take_drop by done.
    pose proof (ceil_div_spec count ps Hps) as Hceil.
    assert (0 < length rows)%nat as Hlen by (destruct rows; [done | simpl; lia]).
    assert (totalPages count ps = ceil_div count ps) as Et
      by (unfold totalPages, count in *; nia).
    assert (Z.to_nat (p' - 1) * Z.to_nat ps < length rows)%nat as Hlt
      by (unfold count in *; nia).
    intros Hnil. apply (f_equal length) in Hnil.
    rewrite length_take, length_drop in Hnil. simpl in Hnil. lia.
  - unfold clamp_effect. destruct (Z.ltb_spec (totalPages count ps) p'); [lia | done].
Qed.

Lemma clamped_page_shows_rows_witness :
  clamp_effect 2 (page (Some 7)) 10 = Some 1
  /\ visibleRows no_settings [row_1xy; row_2z] 1 10 <> [].
Proof.
  split; [reflexivity|].
  exact (proj1 (proj2 (clamped_page_shows_rows no_settings [row_1xy; row_2z] (Some 7) 10
                         ltac:(reflexivity) ltac:(discriminate)))).
Defined.





(** X10. The keys React gets for the rows.  The table keys a row by
    [row[indexColumn] ?? rowIndex].  Those keys are pairwise distinct over
    the deduplicated rows when every row has a value in the index column,
    and when none has; with rows of both kinds they can collide, as a row
    of id 1 followed by a row without id shows. *)
Theorem react_keys_distinct idx rows :
  (forallb (has_index idx) rows = true
   \/ forallb (fun r => negb (has_index idx r)) rows = true) ->
  NoDup (react_keys idx (dedupedVisibleRows idx rows))
  /\ react_keys "id" (dedupedVisibleRows "id" [[("id", VNum 1)]; [("a", VNum 0)]])
     = ["1"; "1"].
Proof.
  intros Hrows. split; [|reflexivity].
  unfold dedupedVisibleRows.
  destruct (dedupe_fold idx rows ∅ []) as (new & -> & Hsub & Hnd & _). simpl.
  assert (forall P : obj -> bool, forallb P rows = true -> forall r, r ∈ new -> P r = true)
    as Hall.
  { intros P HP r Hr. rewrite forallb_forall in HP. apply HP.
    apply list_elem_of_In. eapply elem_of_sublist; [exact Hr | exact Hsub]. }
  destruct Hrows as [Hyes|Hno].
  - assert (react_keys idx new = map (merged_key idx) new) as ->; [|done].
    unfold react_keys. rewrite <- (imap_const (merged_key idx)).
    apply imap_ext. intros i r Hr.
    pose proof (Hall _ Hyes r ltac:(by eapply list_elem_of_lookup_2)) as H.
    unfold has_index in H. unfold row_react_key, merged_key, row_key. simpl.
    by destruct (oget idx r) as [[]|].
  - assert (react_keys idx new
            = map (fun i => to_String (VNum (Z.of_nat i))) (seq 0 (length new))) as ->.
    { unfold react_keys. rewrite <- imap_seq_0. apply imap_ext. intros i r Hr.
      pose proof (Hall _ Hno r ltac:(by eapply list_elem_of_lookup_2)) as H.
      unfold has_index in H. unfold row_react_key. simpl.
      by destruct (oget idx r) as [[]|]. }
    apply NoDup_fmap_2; [|apply NoDup_seq].
    intros i j E. simpl in E. apply show_Z_inj in E. lia.
Qed.

Lemma react_keys_distinct_witness :
  NoDup (react_keys "id" (dedupedVisibleRows "id" [row_1x; row_1y; row_2z])).
Proof.
  apply (react_keys_distinct "id" [row_1x; row_1y; row_2z]).
  left. reflexivity.
Defined.

(** X11. The row numbers.  With pagination on, a positive page size and
    merged rows of distinct keys, the number the table shows beside a row
    is the position of that row among the merged rows, counted from 1. *)
Theorem row_numbers_are_positions s idx rows p ps i r :
  1 <= p -> 0 < ps -> s_enablePagination s <> Some false ->
  NoDup (map (merged_key idx) rows) ->
  dedupedVisibleRows idx (visibleRows s rows p ps) !! i = Some r ->
  rows !! Z.to_nat (row_number p ps i - 1) = Some r
  /\ 1 <= row_number p ps i <= Z.of_nat (length rows).
Proof.
  intros Hp Hps Hon Hnd Hr.
  rewrite dedupedVisibleRows_NoDup in Hr.
  2: { eapply sublist_NoDup; [exact Hnd|].
       apply (fmap_sublist (merged_key idx)), visibleRows_sublist. }
  replace p with (Z.of_nat (S (Z.to_nat (p - 1)))) in Hr by lia.
  rewrite visibleRows_take_drop in Hr by done.
  apply lookup_take_Some in Hr as [Hr Hi]. rewrite lookup_drop in Hr.
  assert (Z.to_nat (row_number p ps i - 1) = (Z.to_nat (p - 1) * Z.to_nat ps + i)%nat) as E
    by (unfold row_number; nia).
  rewrite E. split; [done|].
  apply lookup_lt_Some in Hr. unfold row_number. nia.
Qed.

Lemma row_numbers_are_positions_witness :
  [row_1xy; row_2z] !! Z.to_nat (row_number 2 1 0 - 1) = Some row_2z.
Proof.
  refine (proj1 (row_numbers_are_positions no_settings "id" [row_1xy; row_2z] 2 1 0 row_2z
                   _ _ _ _ eq_refl)).
  - lia.
  - lia.
  - discriminate.
  - compute_done.
Defined.

End TableExtra.

(** ** AreaChartComponent: the series the effect keeps *)

Module ChartExtra.
Import JS AreaChart ChartMore Scenario.
Import PropsFacts SeriesFacts ChartFacts Sorting SortFacts.

(** X12. The series after the effect.  When the series effect runs to
    its end, the chart holds a series for an id exactly when the last
    descriptor of that id is not hidden, whatever it held before; the
    series carries the title of that descriptor ([name], or the id when
    there is none) and the data built from the points of that id in all
    records. *)
Theorem series_follow_last_descriptor records series st st' :
  series_effect records series st = Some st' ->
  (forall id, is_Some (mget id (existingMap st'))
     <-> exists d, last_descriptor id series = Some d /\ hidden d = false)
  /\ (forall id s, mget id (existingMap st') = Some s ->
        exists d, last_descriptor id series = Some d
          /\ d_id d = id /\ d ∈ series
          /\ s_title s = title d
          /\ effect_data (gather id records) = Some (s_data s)).
Proof.
  intros Hrun. pose proof (series_effect_spec _ _ _ _ Hrun) as Hspec.
  split.
  - intros id. specialize (Hspec id).
    destruct (last_descriptor id series) as [d|].
    + destruct (hidden d) eqn:Eh.
      * rewrite Hspec. split; [by intros [? ?]|]. intros (? & [= <-] & ?). congruence.
      * destruct Hspec as (s & -> & _). split; [by exists d | by exists s].
    + rewrite Hspec. split; [by intros [? ?] | by intros (? & ? & ?)].
  - intros id s Hs. specialize (Hspec id).
    destruct (last_descriptor id series) as [d|] eqn:Ed; [|congruence].
    destruct (hidden d); [congruence|].
    destruct Hspec as (s' & Hs' & Ht & Hd).
    assert (s' = s) as -> by congruence.
    apply last_descriptor_id in Ed as [? ?]. by exists d.
Qed.

Lemma series_follow_last_descriptor_witness :
  exists st', series_effect [price_record] [price; volume] empty_chart = Some st'
    /\ (is_Some (mget "price" (existingMap st'))
        <-> exists d, last_descriptor "price" [price; volume] = Some d /\ hidden d = false).
Proof.
  eexists. split; [reflexivity|].
  exact (proj1 (series_follow_last_descriptor [price_record] [price; volume]
                  empty_chart _ eq_refl) "price").
Defined.

(** X13. The data handed to a series, on points that are objects whose
    times are all numbers or none a number.  The effect does not throw
    and sets a list that holds no time key twice, holds a point exactly
    when no later gathered point has its key, and is in ascending order;
    it is the one list the language lets the sort return for these
    points. *)
Theorem effect_data_sorted pts :
  forallb numeric pts = true
  \/ forallb (fun pt => negb (numeric pt)) pts = true ->
  exists out,
    effect_data (map VObj pts) = Some (map VObj out)
    /\ NoDup (map point_key out)
    /\ (forall pt, pt ∈ out <->
          exists pre post, pts = pre ++ pt :: post
            /\ (point_key pt ∉ map point_key post))
    /\ StronglySorted point_before out
    /\ (forall out', series_view pts out' -> out' = out).
Proof.
  intros Hkind. exists (series_data pts).
  destruct (deduplicated pts _ (series_data_perm pts)) as (Hnd & Hin & _ & _).
  split_and!; [apply effect_data_objects | done | done | |].
  - by apply series_data_ascending.
  - intros out' Hview. by destruct (series_view_ascending pts out' Hkind Hview).
Qed.

Lemma effect_data_sorted_witness :
  effect_data (map VObj numeric_points)
  = Some (map VObj [at_time (VNum 1); at_time (VNum 2); at_time (VNum 3)]).
Proof.
  destruct (effect_data_sorted numeric_points (or_introl eq_refl))
    as (out & Hdata & _ & _ & _ & Honly).
  rewrite Hdata. do 2 f_equal. symmetry. apply Honly.
  exact (series_view_model numeric_points (or_introl eq_refl)).
Defined.

(** X14. When the effect throws.  The series effect ends in a TypeError
    exactly when a [null] is among the gathered points of a descriptor
    that is not hidden; the points of hidden series are not read, and
    what the chart held before plays no part. *)
Theorem series_effect_throws_on_null_point records series st :
  series_effect records series st = None
  <-> exists d, d ∈ series /\ hidden d = false /\ VNull ∈ gather (d_id d) records.
Proof. unfold series_effect. apply descriptors_loop_None. Qed.

(** X15. Which series object is on the chart.  The state numbers the
    series objects in the order [addSeries] made them.  After the effect,
    a series that was on the chart before and has no hidden descriptor in
    this run is the same object as before; a series that has a hidden
    descriptor in this run, or was not on the chart before, is an object
    made in this run. *)
Theorem series_object_kept_or_made records series st st' id s :
  series_effect records series st = Some st' ->
  mget id (existingMap st') = Some s ->
  ((forall d, d ∈ series -> d_id d = id -> hidden d = false) ->
     forall s0, mget id (existingMap st) = Some s0 -> s_uid s = s_uid s0)
  /\ ((exists d, d ∈ series /\ d_id d = id /\ hidden d = true) ->
        (created st <= s_uid s)%nat)
  /\ (mget id (existingMap st) = None -> (created st <= s_uid s)%nat).
Proof.
  unfold series_effect. intros Hloop Hs.
  split; [|split].
  - intros Hvis s0 Hs0.
    pose proof (descriptors_loop_spec _ _ _ _ Hloop id) as Hspec.
    assert (stale (seriesById series) id = false) as Hstale.
    { unfold stale. rewrite seriesById_last.
      destruct (last_descriptor id series) as [d|] eqn:Ed.
      - apply last_descriptor_id in Ed as [? ?]. by apply Hvis.
      - simpl in Hspec. rewrite mget_remove_stale in Hspec. unfold stale in Hspec.
        rewrite seriesById_last, Ed in Hspec. congruence. }
    destruct (descriptors_loop_kept records id series _ st' s0 Hloop) as (s' & Hs' & Hu).
    + simpl. by rewrite mget_remove_stale, Hstale.
    + done.
    + congruence.
  - intros (d & Hd & Hid & Hhid).
    exact (descriptors_loop_recreated records id series _ st' d s Hloop Hd Hid Hhid Hs).
  - intros Hnone.
    pose proof (descriptors_loop_fresh records id (created st) series _ st' Hloop) as H.
    simpl in H. rewrite mget_remove_stale, Hnone, Hs in H.
    apply H; [done|]. by destruct (stale (seriesById series) id).
Qed.

Lemma series_object_kept_or_made_witness :
  exists st' s,
    series_effect [price_record] [price; volume] empty_chart = Some st'
    /\ mget "price" (existingMap st') = Some s
    /\ (0 <= s_uid s)%nat.
Proof.
  eexists. eexists. split; [reflexivity|]. split; [reflexivity|].
  exact (proj2 (proj2 (series_object_kept_or_made [price_record] [price; volume]
                         empty_chart _ "price" _ eq_refl eq_refl)) eq_refl).
Defined.

(** X16. The effect settles.  When no id has two descriptors, running
    the effect again on its own result, with the same records and
    descriptors, changes nothing: no series is removed, added or made
    anew.  With an id that is shown, hidden and shown again in one list,
    every run makes a new series object. *)
Theorem series_effect_settles records series st st' :
  NoDup (map d_id series) ->
  series_effect records series st = Some st' ->
  series_effect records series st' = Some st'
  /\ (let again :=
        [price; {| d_id := "price"; d_name := None; d_visible := Some false |}; price] in
      exists st1 st2,
        series_effect [] again empty_chart = Some st1
        /\ series_effect [] again st1 = Some st2
        /\ option_map s_uid (mget "price" (existingMap st1)) = Some 1%nat
        /\ option_map s_uid (mget "price" (existingMap st2)) = Some 2%nat).
Proof.
  intros Hnd Hrun. split.
  2: { do 2 eexists. split; [reflexivity|]. split; [reflexivity|]. by split. }
  pose proof (series_effect_spec _ _ _ _ Hrun) as Hspec.
  unfold series_effect.
  assert (remove_stale (seriesById series) (existingMap st') = existingMap st') as ->.
  { apply remove_stale_none. intros [id s] Hin. simpl.
    assert (mget id (existingMap st') <> None) as Hsome.
    { unfold mget. rewrite oget_None_iff. intros Hn. apply Hn.
      apply list_elem_of_fmap. by exists (id, s). }
    unfold stale. rewrite seriesById_last. specialize (Hspec id).
    destruct (last_descriptor id series) as [d|]; [|done].
    by destruct (hidden d). }
  assert ({| existingMap := existingMap st'; created := created st' |} = st') as ->
    by by destruct st'.
  apply descriptors_loop_fixed. intros d Hd.
  specialize (Hspec (d_id d)). rewrite (last_descriptor_NoDup d series Hnd Hd) in Hspec.
  unfold descriptor_step. destruct (hidden d).
  - by rewrite Hspec.
  - destruct Hspec as (s & Hs & Ht & Hdata). rewrite Hdata, Hs, <- Ht.
    assert ({| s_uid := s_uid s; s_title := s_title s; s_data := s_data s |} = s) as ->
      by by destruct s.
    rewrite mset_same by done. by destruct st'.
Qed.

Lemma series_effect_settles_witness :
  exists st',
    series_effect [price_record] [price; volume] empty_chart = Some st'
    /\ series_effect [price_record] [price; volume] st' = Some st'.
Proof.
  eexists. split; [reflexivity|].
  refine (proj1 (series_effect_settles [price_record] [price; volume] empty_chart _
                   _ eq_refl)).
  compute_done.
Defined.

End ChartExtra.

(** ** The TradingView report: the cells of the grid *)

Module GridExtra.
Import TradingView.

(** X17. The bento grid.  For a column count and an item height that
    are positive, and indices that are array indices, all small enough
    for every number the function computes to be an integer a double
    holds exactly, the cells [makeGridPosition] gives to two different
    widgets never overlap, and a cell lies within the columns: it starts
    at a column from 0 on and ends by four times the column count, which
    for the three columns of the report is the 12 columns of its
    layout. *)
Theorem grid_cells_disjoint colCount itemHeight i j :
  0 < colCount < 2 ^ 32 -> 0 < itemHeight < 2 ^ 21 ->
  0 <= i < 2 ^ 32 -> 0 <= j < 2 ^ 32 -> i <> j ->
  let a := makeGridPosition i colCount itemHeight in
  let b := makeGridPosition j colCount itemHeight in
  ~ overlap a b
  /\ 0 <= x a /\ x a + w a <= 4 * colCount /\ 0 <= y a
  /\ y a + h a < 2 ^ 53.
Proof.
  intros [Hc Hc'] [Hh Hh'] [Hi Hi'] [Hj Hj'] Hij a b.
  unfold a, b, overlap, makeGridPosition. simpl.
  rewrite !Z.rem_mod_nonneg by lia.
  pose proof (Z.mod_pos_bound i colCount Hc) as Hmi.
  pose proof (Z.mod_pos_bound j colCount Hc) as Hmj.
  pose proof (Z.div_mod i colCount ltac:(lia)) as Ei.
  pose proof (Z.div_mod j colCount ltac:(lia)) as Ej.
  pose proof (Z.div_pos i colCount Hi Hc) as Hdi.
  assert (i / colCount <= i) as Hle by (apply Z.div_le_upper_bound; nia).
  split; [|split_and!; nia].
  intros (H1 & H2 & H3 & H4).
  assert (i mod colCount = j mod colCount) as Em by lia.
  assert (i / colCount = j / colCount) as Ed by nia.
  apply Hij. rewrite Ei, Ej. by rewrite Em, Ed.
Qed.

Lemma grid_cells_disjoint_witness :
  ~ overlap (makeGridPosition 2 3 6) (makeGridPosition 3 3 6)
  /\ x (makeGridPosition 2 3 6) + w (makeGridPosition 2 3 6) <= 12.
Proof.
  pose proof (grid_cells_disjoint 3 6 2 3 ltac:(lia) ltac:(lia) ltac:(lia) ltac:(lia)
                ltac:(lia)) as H.
  simpl in H. split; [exact (proj1 H) | exact (proj1 (proj2 (proj2 H)))].
Defined.

End GridExtra.
